(** * LinkMe: the job DAO (internal/repository/dao/sql_job.go) and the
      interactive service (service/interactive.go)

    A shallow embedding of the job-preemption data access object and of
    the like toggle, with the properties of the job leasing protocol
    stated against it.

    The relational table behind [jobDAO] is a list of rows; a GORM query
    is a function on that list.  [time.Now().UnixMilli()] is a parameter
    ([now]) of every operation that reads the clock, and a failure of the
    database driver is a parameter ([fault]) of every query; a failed
    SELECT comes with what GORM left in its destination. *)

From Stdlib Require Import ZArith Lia.
From stdpp Require Import base decidable option list strings gmap.

Local Open Scope Z_scope.

(** ** Go integers *)

Module GoInt.

(** Go's [int] on the 64-bit targets the service is built for. *)
Definition min_int : Z := - 2 ^ 63.
Definition max_int : Z := 2 ^ 63 - 1.

Definition in_range (z : Z) : Prop := min_int <= z <= max_int.

(** Two's complement wrap-around of a mathematical integer. *)
Definition wrap (z : Z) : Z := (z + 2 ^ 63) mod 2 ^ 64 - 2 ^ 63.

(** [a + b] on Go's [int]. *)
Definition add (a b : Z) : Z := wrap (a + b).

End GoInt.

(** ** The job table *)

(** [jobStatusWaiting], [jobStatusRunning], [jobStatusPaused]: the [iota]
    constants of the source. *)
Definition jobStatusWaiting : Z := 0.
Definition jobStatusRunning : Z := 1.
Definition jobStatusPaused : Z := 2.

(** [type Job struct]. *)
Record Job : Type := mkJob {
  Id : Z;
  Name : string;
  Executor : string;
  Expression : string;
  Cfg : string;
  Status : Z;
  Version : Z;
  NextTime : Z;
  CreateTime : Z;
  UpdatedTime : Z
}.

Global Instance Job_eq_dec : EqDecision Job.
Proof. solve_decision. Defined.

(** [Job{}] and [var j Job]: the zero value. *)
Definition zeroJob : Job := mkJob 0 "" "" "" "" 0 0 0 0 0.

(** The rows of the [jobs] table. *)
Abbreviation table := (list Job) (only parsing).

(** [Id] is the primary key: no two rows carry the same id. *)
Definition primary_key (t : table) : Prop := NoDup (Id <$> t).

(** [error]: [None] is Go's [nil]; [ErrRecordNotFound] is what GORM's
    [First] reports on an empty result; [ErrDB] stands for every failure
    of the driver or the server. *)
Inductive error : Type :=
  | ErrRecordNotFound
  | ErrDB (msg : string).

Global Instance error_eq_dec : EqDecision error.
Proof. solve_decision. Defined.

(** A statement of [Preempt] that failed: the error, and what GORM had
    put into the destination [j] of [First(&j)] by then ([scanned]; an
    UPDATE has no destination and does not read it). *)
Record failure : Type := mkFailure {
  failed_with : error;
  scanned : Job
}.

Global Instance failure_eq_dec : EqDecision failure.
Proof. solve_decision. Defined.

(** The error of a failure, if there is one. *)
Definition error_of (fault : option failure) : option error :=
  match fault with
  | Some f => Some (failed_with f)
  | None => None
  end.

(** The columns the DAO writes, named as in the [map[string]any] keys. *)
Inductive column : Type :=
  | status
  | version
  | updated_at
  | next_time.

Definition set_column (c : column) (v : Z) (r : Job) : Job :=
  match c with
  | status =>
      mkJob (Id r) (Name r) (Executor r) (Expression r) (Cfg r)
            v (Version r) (NextTime r) (CreateTime r) (UpdatedTime r)
  | version =>
      mkJob (Id r) (Name r) (Executor r) (Expression r) (Cfg r)
            (Status r) v (NextTime r) (CreateTime r) (UpdatedTime r)
  | updated_at =>
      mkJob (Id r) (Name r) (Executor r) (Expression r) (Cfg r)
            (Status r) (Version r) (NextTime r) (CreateTime r) v
  | next_time =>
      mkJob (Id r) (Name r) (Executor r) (Expression r) (Cfg r)
            (Status r) (Version r) v (CreateTime r) (UpdatedTime r)
  end.

(** The SET clause of an UPDATE. *)
Definition assign (fields : list (column * Z)) (r : Job) : Job :=
  foldl (fun acc cv => set_column cv.1 cv.2 acc) r fields.

(** ** Queries *)

Module Gorm.

(** ORDER BY id LIMIT 1, which GORM's [First] adds to the query. *)
Fixpoint lowest (rows : list Job) : option Job :=
  match rows with
  | [] => None
  | r :: rest =>
      match lowest rest with
      | None => Some r
      | Some m => if decide (Id r <= Id m) then Some r else Some m
      end
  end.

(** [db.Where(cond).First(&j).Error]: the destination [j] and the error.
    [fault] is the failure of the statement, if any: [j] is then as GORM
    left it.  An empty result is [ErrRecordNotFound] and leaves [j] as it
    was declared ([var j Job], the zero value). *)
Definition First (fault : option failure)
    (cond : Job -> Prop) `{!forall r, Decision (cond r)}
    (t : table) : Job * option error :=
  match fault with
  | Some f => (scanned f, Some (failed_with f))
  | None =>
      match lowest (filter cond t) with
      | Some r => (r, None)
      | None => (zeroJob, Some ErrRecordNotFound)
      end
  end.

(** What a finished statement reports. *)
Record result : Type := mkResult {
  RowsAffected : Z;
  Error : option error
}.

(** [db.Model(&Job{}).Where(cond).Updates(fields)]: the report and the
    table afterwards.  Every row that satisfies [cond] gets [fields]; a
    failed statement changes nothing.  (MySQL counts the rows it
    changed; every statement whose count the DAO reads changes
    [version] on each row it matches, so there the rows matched are the
    rows changed.) *)
Definition Updates (fault : option error)
    (cond : Job -> Prop) `{!forall r, Decision (cond r)}
    (fields : list (column * Z)) (t : table) : result * table :=
  match fault with
  | Some e => (mkResult 0 (Some e), t)
  | None =>
      (mkResult (Z.of_nat (length (filter cond t))) None,
       (fun r => if decide (cond r) then assign fields r else r) <$> t)
  end.

End Gorm.

(** ** The DAO *)

(** WHERE status = ? AND next_time < ? *)
Definition due (now : Z) (r : Job) : Prop :=
  Status r = jobStatusWaiting /\ NextTime r < now.

(** WHERE id = ? AND version = ? *)
Definition id_version (id v : Z) (r : Job) : Prop :=
  Id r = id /\ Version r = v.

(** WHERE id = ? *)
Definition has_id (id : Z) (r : Job) : Prop := Id r = id.

Global Instance due_dec now r : Decision (due now r).
Proof. unfold due. apply _. Defined.
Global Instance id_version_dec id v r : Decision (id_version id v r).
Proof. unfold id_version. apply _. Defined.
Global Instance has_id_dec id r : Decision (has_id id r).
Proof. unfold has_id. apply _. Defined.

(** Where a call of [Preempt] stands: about to run the SELECT of an
    iteration, about to run the UPDATE for the candidate [j] it read at
    clock reading [now], or returned with [(j, err)]. *)
Inductive pc : Type :=
  | AtSelect
  | AtUpdate (j : Job) (now : Z)
  | Returned (j : Job) (err : option error).

(** The SELECT of [Preempt] (source lines 55-61). *)
Definition Preempt_select (fault : option failure) (now : Z) (t : table)
    : pc :=
  let '(j, err) := Gorm.First fault (due now) t in
  match err with
  | Some e => Returned j (Some e)
  | None => AtUpdate j now
  end.

(** The fields of the claiming UPDATE. *)
Definition claim_fields (j : Job) (now : Z) : list (column * Z) :=
  [(status, jobStatusRunning);
   (version, GoInt.add (Version j) 1);
   (updated_at, now)].

(** The UPDATE of [Preempt] and what follows it (source lines 62-75). *)
Definition Preempt_update (fault : option error) (j : Job) (now : Z)
    (t : table) : pc * table :=
  let '(res, t') :=
    Gorm.Updates fault (id_version (Id j) (Version j)) (claim_fields j now) t in
  match Gorm.Error res with
  | Some e => (Returned zeroJob (Some e), t')
  | None =>
      if decide (Gorm.RowsAffected res = 0) then (AtSelect, t')
      else (Returned j None, t')
  end.

(** One statement of a call of [Preempt]: [now] is what [time.Now()]
    gives should the call be at the top of its loop, [fault] the failure
    of the statement, if any. *)
Definition Preempt_step (fault : option failure) (now : Z) (p : pc)
    (t : table) : pc * table :=
  match p with
  | AtSelect => (Preempt_select fault now t, t)
  | AtUpdate j now0 => Preempt_update (error_of fault) j now0 t
  | Returned _ _ => (p, t)
  end.

(** [Release]. *)
Definition Release (fault : option error) (now : Z) (jobId : Z)
    (t : table) : option error * table :=
  let '(res, t') :=
    Gorm.Updates fault (has_id jobId)
      [(status, jobStatusWaiting); (updated_at, now)] t in
  (Gorm.Error res, t').

(** [UpdateTime]. *)
Definition UpdateTime (fault : option error) (now : Z) (id : Z)
    (t : table) : option error * table :=
  let '(res, t') :=
    Gorm.Updates fault (has_id id) [(updated_at, now)] t in
  (Gorm.Error res, t').

(** [UpdateNextTime]; [tm] is [t.UnixMilli()]. *)
Definition UpdateNextTime (fault : option error) (now : Z) (id : Z) (tm : Z)
    (t : table) : option error * table :=
  let '(res, t') :=
    Gorm.Updates fault (has_id id) [(updated_at, now); (next_time, tm)] t in
  (Gorm.Error res, t').

(** ** The rows the writes leave *)

(** What [Release], [UpdateTime] and [UpdateNextTime] leave in a row. *)
Definition released (now : Z) (r : Job) : Job :=
  mkJob (Id r) (Name r) (Executor r) (Expression r) (Cfg r)
        jobStatusWaiting (Version r) (NextTime r) (CreateTime r) now.

Definition touched (now : Z) (r : Job) : Job :=
  mkJob (Id r) (Name r) (Executor r) (Expression r) (Cfg r)
        (Status r) (Version r) (NextTime r) (CreateTime r) now.

Definition rescheduled (now tm : Z) (r : Job) : Job :=
  mkJob (Id r) (Name r) (Executor r) (Expression r) (Cfg r)
        (Status r) (Version r) tm (CreateTime r) now.

(** What the claiming UPDATE of [Preempt] leaves in the row it matches. *)
Definition claimed (now : Z) (r : Job) : Job :=
  mkJob (Id r) (Name r) (Executor r) (Expression r) (Cfg r)
        jobStatusRunning (GoInt.add (Version r) 1) (NextTime r)
        (CreateTime r) now.

(** ** Calls of the DAO by other processes *)

(** [Preempt] run from its first statement to its return with no other
    writer in between and no failure of the database. *)
Definition Preempt_alone (now : Z) (t : table) : pc * table :=
  let '(p, t1) := Preempt_step None now AtSelect t in
  Preempt_step None now p t1.

(** The methods of the [JobDAO] interface. *)
Inductive call : Type :=
  | CallPreempt
  | CallRelease (jobId : Z)
  | CallUpdateTime (id : Z)
  | CallUpdateNextTime (id : Z) (tm : Z).

(** The table after a whole call made at clock reading [now]. *)
Definition run_call (c : call) (now : Z) (t : table) : table :=
  match c with
  | CallPreempt => (Preempt_alone now t).2
  | CallRelease jobId => (Release None now jobId t).2
  | CallUpdateTime id => (UpdateTime None now id t).2
  | CallUpdateNextTime id tm => (UpdateNextTime None now id tm t).2
  end.

Definition run_calls (cs : list (call * Z)) (t : table) : table :=
  foldl (fun acc c => run_call c.1 c.2 acc) t cs.

(** One statement of a call of [Preempt] as the database sees it: the
    calls other processes complete [before] it, the failure of the
    statement, if any, and the reading of the clock. *)
Record turn : Type := mkTurn {
  before : list (call * Z);
  fault : option failure;
  clock : Z
}.

(** A call of [Preempt] followed through the statements [turns]. *)
Fixpoint Preempt_run (turns : list turn) (p : pc) (t : table) : pc * table :=
  match turns with
  | [] => (p, t)
  | u :: rest =>
      let '(p', t') := Preempt_step (fault u) (clock u) p (run_calls (before u) t) in
      Preempt_run rest p' t'
  end.

(** [Preempt]: the call from its first statement on.  It has returned
    [(j, err)] when it stands at [Returned j err]; as long as it stands
    elsewhere it is still in its loop. *)
Definition Preempt (turns : list turn) (t : table) : pc * table :=
  Preempt_run turns AtSelect t.

Definition returned (p : pc) : Prop :=
  match p with Returned _ _ => True | _ => False end.

Global Instance returned_dec p : Decision (returned p).
Proof. destruct p; simpl; apply _. Defined.

(** The candidate a call holds, and the job it returns with a nil error,
    say [Waiting]: they are rows as a SELECT of the call read them. *)
Definition as_read (p : pc) : Prop :=
  match p with
  | AtUpdate j _ => Status j = jobStatusWaiting
  | Returned j None => Status j = jobStatusWaiting
  | _ => True
  end.

(** ** Concurrent calls of [Preempt] *)

(** Several processes are each inside one call of [Preempt] on the same
    table.  The database runs one statement at a time; an [event] says
    whose statement runs next. *)
Record event : Type := mkEvent {
  who : nat;
  ev_fault : option failure;
  ev_clock : Z
}.

Record system : Type := mkSystem {
  jobs : table;
  workers : list pc
}.

Definition system_step (s : system) (e : event) : system :=
  match workers s !! who e with
  | None => s
  | Some p =>
      let '(p', t') := Preempt_step (ev_fault e) (ev_clock e) p (jobs s) in
      mkSystem t' (<[who e := p']> (workers s))
  end.

Definition run_system (es : list event) (s : system) : system :=
  foldl system_step s es.

(** [n] processes enter [Preempt]. *)
Definition start (t : table) (n : nat) : system :=
  mkSystem t (replicate n AtSelect).

(** Worker [k] came back from [Preempt] with the job [j] and a nil error. *)
Definition owner (s : system) (k : nat) (j : Job) : Prop :=
  workers s !! k = Some (Returned j None).

(** The statements of worker [k] among [es]. *)
Definition turns_of (k : nat) (es : list event) : nat :=
  length (filter (fun e => who e = k) es).

(** *** What holds of the workers and the table along every run *)

(** The candidate [j] is in the table as it was read. *)
Definition fresh (j : Job) (t : table) : Prop :=
  j ∈ t /\ Status j = jobStatusWaiting.

(** The row of the candidate [j] has been claimed since it was read. *)
Definition taken (j : Job) (t : table) : Prop :=
  exists r, r ∈ t /\ Id r = Id j /\ Status r = jobStatusRunning /\
            Version r <> Version j.

(** The table shows the claim of the worker that read [j]. *)
Definition held (j : Job) (t : table) : Prop :=
  exists r, r ∈ t /\ Id r = Id j /\ Status r = jobStatusRunning /\
            Version r = GoInt.add (Version j) 1.

Record consistent (s : system) : Prop := mkConsistent {
  cons_key : primary_key (jobs s);
  cons_candidate : forall k j now,
    workers s !! k = Some (AtUpdate j now) ->
    fresh j (jobs s) \/ taken j (jobs s);
  cons_owner : forall k j,
    owner s k j -> Status j = jobStatusWaiting /\ held j (jobs s);
  cons_exclusive : forall a b ja jb,
    owner s a ja -> owner s b jb -> Id ja = Id jb -> a = b
}.

(** *** Workers contending for one due job *)

(** The table [t0] once the claiming UPDATE for [j0] has matched at clock
    reading [now]. *)
Definition after_claim (j0 : Job) (now : Z) (t0 : table) : table :=
  (fun x => if decide (id_version (Id j0) (Version j0) x)
            then claimed now x else x) <$> t0.

(** The statement runs without failure, at a clock reading at which
    [j0] is due. *)
Definition calm (j0 : Job) (e : event) : Prop :=
  ev_fault e = None /\ NextTime j0 < ev_clock e.

Global Instance calm_dec j0 e : Decision (calm j0 e).
Proof. unfold calm. apply _. Defined.

(** The statements a call still has to run, at most, before it returns. *)
Definition left_to_run (j0 : Job) (t : table) (p : pc) : nat :=
  match p with
  | AtSelect => if decide (j0 ∈ t) then 3 else 1
  | AtUpdate _ _ => 2
  | Returned _ _ => 0
  end.

(** Either nobody has claimed [j0] yet, or worker [a] has, at [now]. *)
Inductive phase (t0 : table) (j0 : Job) (s : system) : Prop :=
  | Unclaimed :
      jobs s = t0 ->
      (forall k p, workers s !! k = Some p ->
         p = AtSelect \/ exists n, p = AtUpdate j0 n) ->
      phase t0 j0 s
  | Claimed (now : Z) (a : nat) :
      jobs s = after_claim j0 now t0 ->
      workers s !! a = Some (Returned j0 None) ->
      (forall k p, k <> a -> workers s !! k = Some p ->
         p = AtSelect \/ (exists n, p = AtUpdate j0 n) \/
         p = Returned zeroJob (Some ErrRecordNotFound)) ->
      phase t0 j0 s.

(** ** Candidate selection as the specification words it *)

Module Spec.

(** "status = Waiting and next_due_at <= now". *)
Definition claimable (now : Z) (r : Job) : Prop :=
  Status r = jobStatusWaiting /\ NextTime r <= now.

Global Instance claimable_dec now r : Decision (claimable now r).
Proof. unfold claimable. apply _. Defined.

(** "ordered by next_due_at ascending, ties broken by id ascending". *)
Definition earlier (a b : Job) : Prop :=
  NextTime a < NextTime b \/ (NextTime a = NextTime b /\ Id a <= Id b).

Global Instance earlier_dec a b : Decision (earlier a b).
Proof. unfold earlier. apply _. Defined.

Fixpoint earliest (rows : list Job) : option Job :=
  match rows with
  | [] => None
  | r :: rest =>
      match earliest rest with
      | None => Some r
      | Some m => if decide (earlier r m) then Some r else Some m
      end
  end.

(** [findDueCandidate(now) -> Job | NotFound]; [None] is NotFound. *)
Definition findDueCandidate (now : Z) (t : table) : option Job :=
  earliest (filter (claimable now) t).

End Spec.

(** ** The interactive service *)

Module Interactive.

(** The methods of [repository.InteractiveRepository] that [Like] and
    [CancelLike] call.  The repository lives outside the service; [St] is
    whatever it keeps (database and cache), threaded through the calls. *)
Record InteractiveRepository (St : Type) : Type := mkRepo {
  Liked : string -> Z -> Z -> St -> (bool * option error) * St;
  IncrLike : string -> Z -> Z -> St -> option error * St;
  DecrLike : string -> Z -> Z -> St -> option error * St
}.

Arguments Liked {St} _ _ _ _ _.
Arguments IncrLike {St} _ _ _ _ _.
Arguments DecrLike {St} _ _ _ _ _.

(** [interactiveService.Like]. *)
Definition Like {St : Type} (repo : InteractiveRepository St)
    (biz : string) (id uid : Z) (s : St) : option error * St :=
  let '((liked, _), s1) := Liked repo biz id uid s in
  if liked then DecrLike repo biz id uid s1
  else IncrLike repo biz id uid s1.

(** [interactiveService.CancelLike]. *)
Definition CancelLike {St : Type} (repo : InteractiveRepository St)
    (biz : string) (id uid : Z) (s : St) : option error * St :=
  DecrLike repo biz id uid s.

(** A repository kept in memory, to run the service against: who likes
    what, the like counter of every item, and whether the lookup is
    failing at the moment. *)
Record mem : Type := mkMem {
  likes : list (string * Z * Z);
  like_cnt : list (string * Z * Z);
  lookup_down : bool
}.

Definition count_of (biz : string) (id : Z) (m : mem) : Z :=
  match list_find (fun e => e.1 = (biz, id)) (like_cnt m) with
  | Some (_, e) => e.2
  | None => 0
  end.

Definition set_count (biz : string) (id : Z) (n : Z) (m : mem)
    : list (string * Z * Z) :=
  (biz, id, n) :: filter (fun e => e.1 <> (biz, id)) (like_cnt m).

Definition memRepo : InteractiveRepository mem :=
  mkRepo mem
    (fun biz id uid m =>
       if lookup_down m then ((false, Some (ErrDB "lookup failed")), m)
       else ((bool_decide ((biz, id, uid) ∈ likes m), None), m))
    (fun biz id uid m =>
       (None, mkMem ((biz, id, uid) :: likes m)
                    (set_count biz id (count_of biz id m + 1) m)
                    (lookup_down m)))
    (fun biz id uid m =>
       (None, mkMem (filter (fun e => e <> (biz, id, uid)) (likes m))
                    (set_count biz id (count_of biz id m - 1) m)
                    (lookup_down m))).

End Interactive.

(** ** Sample rows *)

(** The job of the specification's end-to-end scenario:
    [{id:1, status:Waiting, version:5, next_due_at:t0}] with [t0 = 1000]. *)
Definition job1 : Job :=
  mkJob 1 "report" "local" "*/5 * * * *" "{}" jobStatusWaiting 5 1000 0 0.

(** A second job, due earlier than [job1] and created after it. *)
Definition job2 : Job :=
  mkJob 2 "cleanup" "local" "@hourly" "{}" jobStatusWaiting 3 500 0 0.

(** [job1] while some worker runs it: claimed at clock reading 1001. *)
Definition job1_running : Job :=
  mkJob 1 "report" "local" "*/5 * * * *" "{}" jobStatusRunning 6 1000 0 1001.

(** [job1] claimed by one worker at 1001, released at 40000 while that
    worker is still busy, and claimed by a second worker at 40001. *)
Definition handed_over : table :=
  run_calls [(CallPreempt, 1001); (CallRelease 1, 40000); (CallPreempt, 40001)]
            [job1].

(** [job1] at version [v], last written at [upd]. *)
Definition job1_at (v upd : Z) : Job :=
  mkJob 1 "report" "local" "*/5 * * * *" "{}" jobStatusWaiting v 1000 0 upd.

(** ** A contended schedule *)

(** One iteration of [Preempt] in which, between its SELECT and its
    UPDATE, another worker claims job [id] and releases it again. *)
Definition contended_iteration (id now : Z) : list turn :=
  [mkTurn [] None now;
   mkTurn [(CallPreempt, now); (CallRelease id, now)] None now].

Fixpoint contended (n : nat) (id now : Z) : list turn :=
  match n with
  | O => []
  | S n' => contended_iteration id now ++ contended n' id now
  end.

(** Three contended iterations, then one whose SELECT comes after a
    heartbeat of another process. *)
Definition contended_then_select : list turn :=
  contended 3 1 2000 ++ [mkTurn [(CallUpdateTime 1, 2001)] None 2001].

(** [n] increments of a Go [int]. *)
Fixpoint add_n (n : nat) (v : Z) : Z :=
  match n with
  | O => v
  | S n' => add_n n' (GoInt.add v 1)
  end.

(** User 42 likes article 7, whose counter stands at 1, and the lookup
    is failing. *)
Definition liked_once_lookup_down : Interactive.mem :=
  Interactive.mkMem [("article", 7, 42)] [("article", 7, 1)] true.

(** The repository with the error of its lookup taken away. *)
Definition forget_lookup_error {St : Type}
    (repo : Interactive.InteractiveRepository St)
    : Interactive.InteractiveRepository St :=
  Interactive.mkRepo St
    (fun biz id uid s =>
       let '((liked, _), s1) := Interactive.Liked repo biz id uid s in
       ((liked, None), s1))
    (Interactive.IncrLike repo)
    (Interactive.DecrLike repo).

(** The repository in memory with a lookup that, while it is failing,
    still answers from what it holds and reports the failure next to the
    answer. *)
Definition answeringRepo : Interactive.InteractiveRepository Interactive.mem :=
  Interactive.mkRepo Interactive.mem
    (fun biz id uid m =>
       ((bool_decide ((biz, id, uid) ∈ Interactive.likes m),
         if Interactive.lookup_down m then Some (ErrDB "lookup failed")
         else None), m))
    (Interactive.IncrLike Interactive.memRepo)
    (Interactive.DecrLike Interactive.memRepo).

(** Two workers taking turns, three statements each. *)
Definition two_workers_in_turn : list event :=
  [mkEvent 0 None 1001; mkEvent 1 None 1001;
   mkEvent 0 None 1002; mkEvent 1 None 1002;
   mkEvent 0 None 1003; mkEvent 1 None 1003].

(** The race of the specification's end-to-end scenario: both workers
    read [job1] at version 5, worker 0 writes first, worker 1 writes and
    then selects again. *)
Definition both_read_then_write : list event :=
  [mkEvent 0 None 1001; mkEvent 1 None 1001;
   mkEvent 0 None 1001; mkEvent 1 None 1001;
   mkEvent 1 None 1002].

(** ** Columns and counts *)

(** The columns no statement of the DAO names in a SET clause. *)
Definition immutable (r : Job) : Z * string * string * string * string * Z :=
  (Id r, Name r, Executor r, Expression r, Cfg r, CreateTime r).

(** What the compare-and-swap of [Preempt] is keyed on. *)
Definition key (r : Job) : Z * Z := (Id r, Version r).

(** The job a call of [Release], [UpdateTime] or [UpdateNextTime] names. *)
Definition call_id (c : call) : option Z :=
  match c with
  | CallPreempt => None
  | CallRelease jobId => Some jobId
  | CallUpdateTime id => Some id
  | CallUpdateNextTime id _ => Some id
  end.

(** The rows with status Waiting. *)
Definition waiting (r : Job) : Prop := Status r = jobStatusWaiting.

Global Instance waiting_dec r : Decision (waiting r).
Proof. unfold waiting. apply _. Defined.

Definition waiting_rows (t : table) : nat := length (filter waiting t).

(** What a call of [Release], [UpdateTime] or [UpdateNextTime] made at
    [now] leaves in the row it names. *)
Definition write_of (c : call) (now : Z) (r : Job) : Job :=
  match c with
  | CallPreempt => r
  | CallRelease _ => released now r
  | CallUpdateTime _ => touched now r
  | CallUpdateNextTime _ tm => rescheduled now tm r
  end.

(** ** Contention among calls of [Preempt] on any table *)

Global Instance fresh_dec j t : Decision (fresh j t).
Proof. unfold fresh. apply _. Defined.

(** Every row is a row of [t0], or the claim of a waiting row of [t0] by
    a worker that came back with it. *)
Definition accounted (t0 : table) (s : system) : Prop :=
  forall r', r' ∈ jobs s ->
    r' ∈ t0 \/
    exists r0 now k,
      r0 ∈ t0 /\ waiting r0 /\ r' = claimed now r0 /\ owner s k r0.

(** A bound on the statements a call has yet to run on a table with
    [waiting_rows t] waiting jobs, other calls of [Preempt] running
    alongside. *)
Definition statements_left (t : table) (p : pc) : nat :=
  match p with
  | AtSelect => 2 * waiting_rows t + 1
  | AtUpdate j _ =>
      if decide (fresh j t) then 2 * waiting_rows t
      else 2 * waiting_rows t + 2
  | Returned _ _ => 0
  end.

(** ** The rest of the interactive service *)

Module InteractiveQueries.

Section service.

(** [St] is what the repository keeps; [Interactive] is
    [domain.Interactive], of which the service reads the field [BizID]
    and builds the zero value [domain.Interactive{}]. *)
Context {St Interactive : Type}.
Variable BizID : Interactive -> Z.
Variable zeroInteractive : Interactive.

(** The methods of [repository.InteractiveRepository] that [Collect],
    [CancelCollect], [Get] and [GetByIds] call. *)
Record Repository : Type := mkRepository {
  Collected : string -> Z -> Z -> St -> (bool * option error) * St;
  IncrCollectionItem : string -> Z -> Z -> Z -> St -> option error * St;
  DecrCollectionItem : string -> Z -> Z -> Z -> St -> option error * St;
  RepoGet : string -> Z -> St -> (Interactive * option error) * St;
  RepoGetById :
    string -> list Z -> St -> (list Interactive * option error) * St
}.


(** [interactiveService.CancelCollect]. *)
Definition CancelCollect (repo : Repository) (biz : string) (id cid uid : Z)
    (s : St) : option error * St :=
  DecrCollectionItem repo biz id cid uid s.

(** [interactiveService.Get]. *)
Definition Get (repo : Repository) (biz : string) (id : Z)
    (s : St) : (Interactive * option error) * St :=
  let '((di, err), s1) := RepoGet repo biz id s in
  match err with
  | Some e => ((zeroInteractive, Some e), s1)
  | None => ((di, err), s1)
  end.

(** The loop of [GetByIds]: [resultDis[interactive.BizID] = interactive]
    for every element in turn, starting from the empty map. *)
Definition by_biz_id (dis : list Interactive) : gmap Z Interactive :=
  foldl (fun m interactive => <[BizID interactive := interactive]> m) ∅ dis.

(** [interactiveService.GetByIds]; the map is [None] where Go returns
    [nil]. *)
Definition GetByIds (repo : Repository) (biz : string) (ids : list Z)
    (s : St) : (option (gmap Z Interactive) * option error) * St :=
  let '((dis, err), s1) := RepoGetById repo biz ids s in
  match err with
  | Some e => ((None, Some e), s1)
  | None => ((Some (by_biz_id dis), err), s1)
  end.

End service.

End InteractiveQueries.

(** ** The user handler (internal/api/user.go) *)

(** The request bodies, with the fields the handlers read. *)
Module SignUpReq.
Record t : Type := mk { Email : string; Password : string; ConfirmPassword : string }.
End SignUpReq.

Module LoginReq.
Record t : Type := mk { Email : string; Password : string }.
End LoginReq.

Module ChangeReq.
Record t : Type := mk {
  Email : string;
  Password : string;
  NewPassword : string;
  ConfirmPassword : string
}.
End ChangeReq.

Module UserApi.

(** The codes and messages of the [constants] package that [SignUp],
    [Login] and [ChangePassword] use; their values are not in this
    file. *)
Record Constants : Type := mkConstants {
  RequestsOK : Z;
  UserServerErrorCode : Z;
  UserEmailFormatErrorCode : Z;
  UserPasswordMismatchErrorCode : Z;
  UserPasswordFormatErrorCode : Z;
  UserEmailConflictErrorCode : Z;
  UserInvalidOrPasswordCode : Z;
  UserInvalidInputCode : Z;
  UserSignUpFailure : string;
  UserSignUpSuccess : string;
  UserEmailFormatError : string;
  UserPasswordMismatchError : string;
  UserPasswordFormatError : string;
  UserEmailConflictError : string;
  UserLoginSuccess : string;
  UserLoginFailure : string;
  UserPasswordChangeFailure : string;
  UserPasswordChangeSuccess : string
}.

(** [ginp.Result]; [Data] is [None] where Go has [nil]. *)
Record Result (Payload : Type) : Type := mkResult {
  Code : Z;
  Msg : string;
  Data : option Payload
}.

Arguments mkResult {Payload} _ _ _.
Arguments Code {Payload} _.
Arguments Msg {Payload} _.
Arguments Data {Payload} _.

(** [UserHandler], with what these handlers use of it.  [W] is
    everything behind the handler (the user service with its store, the
    token handler, the logger); [User] is [domain.User], of which [Login]
    reads [ID].  [Email] and [PassWord] are [MatchString] of the two
    compiled patterns; [IsDuplicateEmail] and [IsInvalidUserOrPassword]
    are [errors.Is] against the two errors of the service. *)
Record UserHandler (W User : Type) : Type := mkUserHandler {
  Email : string -> bool * option error;
  PassWord : string -> bool * option error;
  svc_SignUp : string -> string -> W -> option error * W;
  svc_Login : string -> string -> W -> (User * option error) * W;
  svc_ChangePassword :
    string -> string -> string -> string -> W -> option error * W;
  ijwt_SetLoginToken : Z -> W -> option error * W;
  l_Error : string -> error -> W -> W;
  ID : User -> Z;
  IsDuplicateEmail : error -> bool;
  IsInvalidUserOrPassword : error -> bool
}.

Arguments Email {W User} _ _.
Arguments PassWord {W User} _ _.
Arguments svc_SignUp {W User} _ _ _ _.
Arguments svc_Login {W User} _ _ _ _.
Arguments svc_ChangePassword {W User} _ _ _ _ _ _.
Arguments ijwt_SetLoginToken {W User} _ _ _.
Arguments l_Error {W User} _ _ _ _.
Arguments ID {W User} _ _.
Arguments IsDuplicateEmail {W User} _ _.
Arguments IsInvalidUserOrPassword {W User} _ _.

Section handlers.
Context {W User Payload : Type}.
Variable k : Constants.
Variable uh : UserHandler W User.

(** [UserHandler.SignUp]. *)
Definition SignUp (req : SignUpReq.t) (w : W)
    : (Result Payload * option error) * W :=
  let '(emailValid, err) := Email uh (SignUpReq.Email req) in
  match err with
  | Some e =>
      ((mkResult (UserServerErrorCode k) (UserSignUpFailure k) None, Some e), w)
  | None =>
  if negb emailValid then
    ((mkResult (UserEmailFormatErrorCode k) (UserEmailFormatError k) None,
      None), w)
  else if decide (SignUpReq.Password req <> SignUpReq.ConfirmPassword req) then
    ((mkResult (UserPasswordMismatchErrorCode k)
               (UserPasswordMismatchError k) None, None), w)
  else
  let '(passwordValid, err) := PassWord uh (SignUpReq.Password req) in
  match err with
  | Some e =>
      ((mkResult (UserServerErrorCode k) (UserSignUpFailure k) None, Some e), w)
  | None =>
  if negb passwordValid then
    ((mkResult (UserPasswordFormatErrorCode k) (UserPasswordFormatError k) None,
      None), w)
  else
  let '(err, w1) :=
    svc_SignUp uh (SignUpReq.Email req) (SignUpReq.Password req) w in
  match err with
  | Some e =>
      if IsDuplicateEmail uh e then
        ((mkResult (UserEmailConflictErrorCode k) (UserEmailConflictError k)
                   None, None), w1)
      else
        ((mkResult (UserServerErrorCode k) (UserSignUpFailure k) None,
          Some e), w1)
  | None =>
      ((mkResult (RequestsOK k) (UserSignUpSuccess k) None, None), w1)
  end
  end
  end.

(** [UserHandler.Login]. *)
Definition Login (req : LoginReq.t) (w : W)
    : (Result Payload * option error) * W :=
  let '((du, err), w1) :=
    svc_Login uh (LoginReq.Email req) (LoginReq.Password req) w in
  match err with
  | None =>
      let '(_, w2) := ijwt_SetLoginToken uh (ID uh du) w1 in
      ((mkResult (RequestsOK k) (UserLoginSuccess k) None, None), w2)
  | Some e =>
      if IsInvalidUserOrPassword uh e then
        ((mkResult (UserInvalidOrPasswordCode k) (UserLoginFailure k) None,
          None), w1)
      else ((mkResult (UserServerErrorCode k) "" None, Some e), w1)
  end.

(** [UserHandler.ChangePassword]. *)
Definition ChangePassword (req : ChangeReq.t) (w : W)
    : (Result Payload * option error) * W :=
  if decide (ChangeReq.NewPassword req <> ChangeReq.ConfirmPassword req) then
    ((mkResult (UserInvalidInputCode k) (UserPasswordMismatchError k) None,
      None), w)
  else
  let '(err, w1) :=
    svc_ChangePassword uh (ChangeReq.Email req) (ChangeReq.Password req)
      (ChangeReq.NewPassword req) (ChangeReq.ConfirmPassword req) w in
  match err with
  | Some e =>
      if IsInvalidUserOrPassword uh e then
        ((mkResult (UserInvalidOrPasswordCode k) (UserLoginFailure k) None,
          None), w1)
      else
        ((mkResult (UserServerErrorCode k) (UserPasswordChangeFailure k) None,
          Some e), l_Error uh "change password failed" e w1)
  | None =>
      ((mkResult (RequestsOK k) (UserPasswordChangeSuccess k) None, None), w1)
  end.

End handlers.

End UserApi.

(** A handler to run the handlers against.  What is behind it is the
    list of registered emails and a journal of what was logged; a user
    is its id.  The numbers and texts stand in for those of the
    [constants] package. *)
Definition sample_constants : UserApi.Constants :=
  UserApi.mkConstants 200 500 4001 4002 4003 4004 4005 4006
    "sign up failed" "sign up ok" "bad email" "passwords differ"
    "bad password" "email taken" "login ok" "login failed"
    "change failed" "change ok".

Record backend : Type := mkBackend {
  registered : list string;
  journal : list string;
  store_down : bool
}.

Definition sample_handler : UserApi.UserHandler backend Z :=
  UserApi.mkUserHandler backend Z
    (fun s => (bool_decide (s = "ann@example.com" \/ s = "bob@example.com"),
               None))
    (fun s => (bool_decide (8 <= String.length s)%nat, None))
    (fun email _ w =>
       if decide (email ∈ registered w)
       then (Some (ErrDB "duplicate email"), w)
       else if store_down w then (Some (ErrDB "store unreachable"), w)
       else (None, mkBackend (email :: registered w) (journal w)
                             (store_down w)))
    (fun email _ w =>
       if decide (email ∈ registered w) then ((1, None), w)
       else ((0, Some (ErrDB "invalid user or password")), w))
    (fun email _ _ _ w =>
       if store_down w then (Some (ErrDB "store unreachable"), w)
       else if decide (email ∈ registered w) then (None, w)
       else (Some (ErrDB "invalid user or password"), w))
    (fun _ w =>
       if store_down w then (Some (ErrDB "store unreachable"), w)
       else (None, w))
    (fun msg _ w =>
       mkBackend (registered w) (msg :: journal w) (store_down w))
    (fun u => u)
    (fun e => bool_decide (e = ErrDB "duplicate email"))
    (fun e => bool_decide (e = ErrDB "invalid user or password")).

Definition bob_signs_up : SignUpReq.t :=
  SignUpReq.mk "bob@example.com" "correct horse" "correct horse".

Definition ann_changes_password : ChangeReq.t :=
  ChangeReq.mk "ann@example.com" "correct horse" "battery staple"
               "battery staple".

Definition only_ann : backend := mkBackend ["ann@example.com"] [] false.

Definition only_ann_store_down : backend :=
  mkBackend ["ann@example.com"] [] true.

(** * Properties *)

(** ** Go integers *)

Lemma wrap_range z : GoInt.in_range (GoInt.wrap z).
Proof.
  unfold GoInt.in_range, GoInt.wrap, GoInt.min_int, GoInt.max_int.
  pose proof (Z.mod_pos_bound (z + 2 ^ 63) (2 ^ 64) ltac:(lia)). lia.
Qed.

Lemma wrap_id z : GoInt.in_range z -> GoInt.wrap z = z.
Proof.
  unfold GoInt.in_range, GoInt.wrap, GoInt.min_int, GoInt.max_int. intros Hz.
  rewrite Z.mod_small by lia. lia.
Qed.

Lemma add_no_overflow a :
  GoInt.in_range a -> a < GoInt.max_int -> GoInt.add a 1 = a + 1.
Proof.
  unfold GoInt.add. intros Ha Hlt. apply wrap_id.
  unfold GoInt.in_range, GoInt.min_int, GoInt.max_int in *. lia.
Qed.

(** Incrementing never gives back the same number, also when it wraps. *)
Lemma add_1_neq a : GoInt.add a 1 <> a.
Proof.
  unfold GoInt.add, GoInt.wrap. intros Heq.
  pose proof (Z.mod_pos_bound (a + 1 + 2 ^ 63) (2 ^ 64) ltac:(lia)) as Hb.
  assert (Hm : (a + 1 + 2 ^ 63) mod 2 ^ 64 = a + 2 ^ 63) by lia.
  destruct (Z.eq_dec (a + 2 ^ 63) (2 ^ 64 - 1)) as [Htop|Hntop].
  - replace (a + 1 + 2 ^ 63) with (2 ^ 64) in Hm by lia.
    rewrite Z.mod_same in Hm by lia. lia.
  - rewrite Z.mod_small in Hm by lia. lia.
Qed.

(** ** Rows and assignments *)

Lemma set_column_Id c v r : Id (set_column c v r) = Id r.
Proof. by destruct c. Qed.

Lemma assign_Id fields r : Id (assign fields r) = Id r.
Proof.
  unfold assign. revert r.
  induction fields as [|[c v] fields IH]; intros r; simpl; [done|].
  by rewrite IH, set_column_Id.
Qed.

(** ** [First] *)

Lemma lowest_None rows : Gorm.lowest rows = None <-> rows = [].
Proof.
  destruct rows as [|r rest]; simpl; [done|].
  split; [|done]. destruct (Gorm.lowest rest); [|done].
  by destruct (decide _).
Qed.

Lemma lowest_elem rows m : Gorm.lowest rows = Some m -> m ∈ rows.
Proof.
  revert m. induction rows as [|r rest IH]; intros m; simpl; [done|].
  destruct (Gorm.lowest rest) as [m'|] eqn:Hrest.
  - destruct (decide _); intros [= <-]; [left|right; by apply IH].
  - intros [= <-]. left.
Qed.

Lemma lowest_least rows m r :
  Gorm.lowest rows = Some m -> r ∈ rows -> Id m <= Id r.
Proof.
  revert m. induction rows as [|r0 rest IH]; intros m; simpl.
  - done.
  - intros Hm Hr. destruct (Gorm.lowest rest) as [m'|] eqn:Hrest.
    + specialize (IH m' eq_refl).
      apply elem_of_cons in Hr as [->|Hr].
      * destruct (decide _); simplify_eq; lia.
      * specialize (IH Hr). destruct (decide _); simplify_eq; lia.
    + simplify_eq. apply lowest_None in Hrest as ->.
      apply elem_of_cons in Hr as [->|Hr]; [lia|]. by apply elem_of_nil in Hr.
Qed.

Section first.
Context (cond : Job -> Prop) `{!forall r, Decision (cond r)}.

Lemma First_found t j :
  Gorm.First None cond t = (j, None) ->
  j ∈ t /\ cond j /\ forall r, r ∈ t -> cond r -> Id j <= Id r.
Proof.
  unfold Gorm.First.
  destruct (Gorm.lowest (filter cond t)) as [m|] eqn:Hlow; [|done].
  intros [= <-].
  pose proof (lowest_elem _ _ Hlow) as Hin.
  apply list_elem_of_filter in Hin as [Hc Hin].
  repeat split; [done..|].
  intros r Hr Hcr. eapply lowest_least; [done|].
  by apply list_elem_of_filter.
Qed.

Lemma First_not_found t j e :
  Gorm.First None cond t = (j, Some e) ->
  j = zeroJob /\ e = ErrRecordNotFound /\ forall r, r ∈ t -> ~ cond r.
Proof.
  unfold Gorm.First.
  destruct (Gorm.lowest (filter cond t)) as [m|] eqn:Hlow; [done|].
  intros [= <- <-]. repeat split.
  apply lowest_None in Hlow. intros r Hr Hc.
  by eapply filter_nil_not_elem_of.
Qed.

Lemma First_fault f t :
  Gorm.First (Some f) cond t = (scanned f, Some (failed_with f)).
Proof. done. Qed.

(** A row that satisfies the condition is enough for [First] to find one. *)
Lemma First_finds t r :
  r ∈ t -> cond r -> exists j, Gorm.First None cond t = (j, None).
Proof.
  intros Hr Hc. unfold Gorm.First.
  destruct (Gorm.lowest (filter cond t)) as [m|] eqn:Hlow; [by eexists|].
  apply lowest_None in Hlow.
  by destruct (filter_nil_not_elem_of cond t r Hlow Hc).
Qed.

End first.

(** ** Candidate selection *)

Lemma Preempt_select_cases fault now t :
  match Preempt_select fault now t with
  | AtUpdate j n => fault = None /\ n = now /\ Gorm.First None (due now) t = (j, None)
  | Returned j (Some e) =>
      (exists f, fault = Some f /\ j = scanned f /\ e = failed_with f) \/
      (fault = None /\ j = zeroJob /\
       Gorm.First None (due now) t = (zeroJob, Some e))
  | _ => False
  end.
Proof.
  unfold Preempt_select. destruct fault as [f|].
  - rewrite First_fault. left. by exists f.
  - destruct (Gorm.First None (due now) t) as [j [e|]] eqn:HF; [|done].
    apply First_not_found in HF as Hnf. destruct Hnf as (-> & -> & _). auto.
Qed.

(** C8, as amended: for every table and every clock reading [now], the
    SELECT of [Preempt] yields a row with [status = Waiting] and
    [next_time < now] (strictly), and among all such rows the one with the
    lowest id; when there is no such row it reports [ErrRecordNotFound]
    and the zero [Job]. *)
Theorem C8_select_lowest_id_strictly_due (now : Z) (t : table) :
  match Preempt_select None now t with
  | AtUpdate j n =>
      n = now /\ j ∈ t /\
      Status j = jobStatusWaiting /\ NextTime j < now /\
      forall r, r ∈ t -> Status r = jobStatusWaiting -> NextTime r < now ->
                Id j <= Id r
  | Returned j e =>
      j = zeroJob /\ e = Some ErrRecordNotFound /\
      forall r, r ∈ t -> ~ (Status r = jobStatusWaiting /\ NextTime r < now)
  | AtSelect => False
  end.
Proof.
  pose proof (Preempt_select_cases None now t) as H.
  destruct (Preempt_select None now t) as [|j n|j [e|]]; [done| | |done].
  - destruct H as (_ & -> & HF).
    apply First_found in HF as (Hin & [Hs Hn] & Hleast).
    repeat split; [done..|].
    intros r Hr Hrs Hrn. by apply Hleast.
  - destruct H as [(f & ? & _)|(_ & -> & HF)]; [done|].
    apply First_not_found in HF as (_ & -> & Hno). by repeat split.
Qed.

(** C8, as stated, fails twice over.  With [job1] (due at 1000) and
    [job2] (due at 500) both waiting at 2000 the SELECT takes [job1], the
    lower id, where the specification's order takes [job2], the earlier
    due time; and at 1000 sharp the SELECT finds nothing where the
    specification's [<=] finds [job1]. *)
Lemma C8_select_ignores_due_order :
  Preempt_select None 2000 [job1; job2] = AtUpdate job1 2000 /\
  Spec.findDueCandidate 2000 [job1; job2] = Some job2 /\
  Preempt_select None 1000 [job1] = Returned zeroJob (Some ErrRecordNotFound) /\
  Spec.findDueCandidate 1000 [job1] = Some job1.
Proof. vm_compute. by repeat split. Qed.

(** ** The boundary of being due *)

Lemma Preempt_alone_single_due j now :
  Status j = jobStatusWaiting -> NextTime j < now ->
  Preempt_alone now [j] = (Returned j None, [assign (claim_fields j now) j]).
Proof.
  intros Hs Hn. unfold Preempt_alone, Preempt_step, Preempt_select, Gorm.First.
  rewrite filter_cons_True by done. simpl.
  unfold Preempt_update, Gorm.Updates.
  rewrite filter_cons_True by done. simpl.
  by rewrite decide_True by done.
Qed.

Lemma Preempt_alone_single_not_due j now :
  ~ due now j ->
  Preempt_alone now [j] = (Returned zeroJob (Some ErrRecordNotFound), [j]).
Proof.
  intros Hnd. unfold Preempt_alone, Preempt_step, Preempt_select, Gorm.First.
  by rewrite filter_cons_False by done.
Qed.

(** C9: a waiting job is not claimable at the instant [now = next_time]:
    [Preempt] on a table that holds the job finds no candidate in it
    (alone in the table: [ErrRecordNotFound]; in any table: the row the
    SELECT takes is another one), and [Preempt] claims the job exactly at
    the clock readings strictly greater than its [next_time]. *)
Theorem C9_not_claimable_at_next_time (j : Job) :
  Status j = jobStatusWaiting ->
  Preempt_alone (NextTime j) [j]
    = (Returned zeroJob (Some ErrRecordNotFound), [j]) /\
  (forall fault t c n,
     Preempt_select fault (NextTime j) t = AtUpdate c n -> c <> j) /\
  (forall now,
     (exists t', Preempt_alone now [j] = (Returned j None, t'))
     <-> NextTime j < now).
Proof.
  intros Hs. split_and!.
  - apply Preempt_alone_single_not_due. unfold due. lia.
  - intros fault t c n Hsel.
    pose proof (Preempt_select_cases fault (NextTime j) t) as H.
    rewrite Hsel in H. destruct H as (_ & _ & HF).
    apply First_found in HF as (_ & [_ Hlt] & _).
    intros ->. lia.
  - intros now. split.
    + intros [t' Hrun]. destruct (decide (NextTime j < now)) as [|Hge]; [done|].
      rewrite Preempt_alone_single_not_due in Hrun by (unfold due; lia).
      done.
    + intros Hlt. eexists. by apply Preempt_alone_single_due.
Qed.

Lemma C9_not_claimable_at_next_time_witness :
  Preempt_alone (NextTime job1) [job1]
    = (Returned zeroJob (Some ErrRecordNotFound), [job1]) /\
  (forall fault t c n,
     Preempt_select fault (NextTime job1) t = AtUpdate c n -> c <> job1) /\
  (forall now,
     (exists t', Preempt_alone now [job1] = (Returned job1 None, t'))
     <-> NextTime job1 < now).
Proof. apply (C9_not_claimable_at_next_time job1). reflexivity. Defined.

(** ** [Updates] *)

Section updates.
Context (cond : Job -> Prop) `{!forall r, Decision (cond r)}.

Lemma Updates_fault e fields t :
  Gorm.Updates (Some e) cond fields t = (Gorm.mkResult 0 (Some e), t).
Proof. done. Qed.

Lemma Updates_elem fields t r' :
  r' ∈ (Gorm.Updates None cond fields t).2 <->
  exists r, r ∈ t /\ r' = if decide (cond r) then assign fields r else r.
Proof.
  simpl. rewrite list_elem_of_fmap. split; intros (r & H1 & H2); eauto.
Qed.

Lemma Updates_ids fields t :
  Id <$> (Gorm.Updates None cond fields t).2 = Id <$> t.
Proof.
  simpl. rewrite <- list_fmap_compose. apply list_fmap_ext.
  intros _ r _. simpl. destruct (decide (cond r)); [apply assign_Id|done].
Qed.

Lemma Updates_primary_key fields t :
  primary_key t -> primary_key (Gorm.Updates None cond fields t).2.
Proof. unfold primary_key. by rewrite Updates_ids. Qed.

(** No row matches: zero rows affected, and the table is as it was. *)
Lemma Updates_no_match fields t :
  (forall r, r ∈ t -> ~ cond r) ->
  Gorm.Updates None cond fields t = (Gorm.mkResult 0 None, t).
Proof.
  intros Hno. unfold Gorm.Updates. f_equal.
  - f_equal. induction t as [|r t IH]; [done|].
    rewrite filter_cons_False by (apply Hno; left).
    apply IH. intros r' Hr'. apply Hno. by right.
  - rewrite <- (list_fmap_id t) at 2. apply list_fmap_ext.
    intros i r Hr. rewrite decide_False; [done|].
    apply Hno. by eapply list_elem_of_lookup_2.
Qed.

Lemma Updates_rows_zero fields t :
  Gorm.RowsAffected (Gorm.Updates None cond fields t).1 = 0 <->
  forall r, r ∈ t -> ~ cond r.
Proof.
  split.
  - simpl. intros Hz r Hr Hc.
    assert (Hin : r ∈ filter cond t) by by apply list_elem_of_filter.
    destruct (filter cond t); [by apply elem_of_nil in Hin|simpl in Hz; lia].
  - intros Hno. by rewrite Updates_no_match.
Qed.

End updates.

(** Under the primary key, the row with a given id is the only one. *)
Lemma primary_key_inj t r1 r2 :
  primary_key t -> r1 ∈ t -> r2 ∈ t -> Id r1 = Id r2 -> r1 = r2.
Proof.
  unfold primary_key. intros Hnd H1 H2 Heq.
  apply list_elem_of_lookup in H1 as [i1 H1].
  apply list_elem_of_lookup in H2 as [i2 H2].
  assert (i1 = i2) as ->; [|congruence].
  eapply NoDup_lookup; [exact Hnd| |].
  - by rewrite list_lookup_fmap, H1.
  - by rewrite list_lookup_fmap, H2, Heq.
Qed.

(** ** The writes keyed on the id alone *)

Lemma Release_table now jobId t :
  Release None now jobId t =
  (None, (fun r => if decide (Id r = jobId) then released now r else r) <$> t).
Proof. done. Qed.

Lemma UpdateTime_table now id t :
  UpdateTime None now id t =
  (None, (fun r => if decide (Id r = id) then touched now r else r) <$> t).
Proof. done. Qed.

Lemma UpdateNextTime_table now id tm t :
  UpdateNextTime None now id tm t =
  (None,
   (fun r => if decide (Id r = id) then rescheduled now tm r else r) <$> t).
Proof. done. Qed.

Lemma Release_fault e now jobId t : Release (Some e) now jobId t = (Some e, t).
Proof. done. Qed.

Lemma UpdateTime_fault e now id t : UpdateTime (Some e) now id t = (Some e, t).
Proof. done. Qed.

Lemma UpdateNextTime_fault e now id tm t :
  UpdateNextTime (Some e) now id tm t = (Some e, t).
Proof. done. Qed.

Lemma fmap_if_elem (f : Job -> Job) (P : Job -> Prop)
    `{!forall r, Decision (P r)} (t : table) (r : Job) :
  r ∈ t -> (if decide (P r) then f r else r)
             ∈ (fun x => if decide (P x) then f x else x) <$> t.
Proof. intros Hr. apply list_elem_of_fmap. by exists r. Qed.

Lemma fmap_if_versions (f : Job -> Job) (P : Job -> Prop)
    `{!forall r, Decision (P r)} (t : table) :
  (forall r, Version (f r) = Version r) ->
  Version <$> ((fun x => if decide (P x) then f x else x) <$> t)
    = Version <$> t.
Proof.
  intros Hf. rewrite <- list_fmap_compose. apply list_fmap_ext.
  intros _ r _. simpl. by destruct (decide (P r)).
Qed.

(** ** The claiming write *)

Lemma claim_fields_assign j now r :
  Version r = Version j -> assign (claim_fields j now) r = claimed now r.
Proof. intros Hv. unfold assign, claimed. simpl. by rewrite Hv. Qed.

Lemma Preempt_update_fault e j now t :
  Preempt_update (Some e) j now t = (Returned zeroJob (Some e), t).
Proof. done. Qed.

(** The compare-and-swap matched nothing: the call goes back to its
    SELECT, and the table is as it was. *)
Lemma Preempt_update_miss j now t :
  (forall r, r ∈ t -> ~ id_version (Id j) (Version j) r) ->
  Preempt_update None j now t = (AtSelect, t).
Proof.
  intros Hno. unfold Preempt_update.
  by rewrite Updates_no_match by done.
Qed.

(** The compare-and-swap matched: the call returns the candidate it was
    given, and every matching row is [claimed]. *)
Lemma Preempt_update_hit j now t r :
  r ∈ t -> id_version (Id j) (Version j) r ->
  Preempt_update None j now t =
  (Returned j None,
   (fun x => if decide (id_version (Id j) (Version j) x)
             then claimed now x else x) <$> t).
Proof.
  intros Hr Hc. unfold Preempt_update.
  destruct (Gorm.Updates None _ (claim_fields j now) t) as [res t'] eqn:HU.
  assert (Hres : Gorm.Error res = None) by (by inversion HU).
  rewrite Hres.
  assert (Hrows : Gorm.RowsAffected res <> 0).
  { intros Hz.
    pose proof (proj1 (Updates_rows_zero
      (id_version (Id j) (Version j)) (claim_fields j now) t)) as Hall.
    rewrite HU in Hall. by apply (Hall Hz r). }
  rewrite decide_False by done. f_equal.
  inversion HU. apply list_fmap_ext. intros _ x _.
  destruct (decide _) as [[_ Hv]|]; [|done].
  by apply claim_fields_assign.
Qed.

Lemma Preempt_update_cases j now t :
  (Preempt_update None j now t = (AtSelect, t) /\
   forall r, r ∈ t -> ~ id_version (Id j) (Version j) r) \/
  (Preempt_update None j now t =
     (Returned j None,
      (fun x => if decide (id_version (Id j) (Version j) x)
                then claimed now x else x) <$> t) /\
   exists r, r ∈ t /\ id_version (Id j) (Version j) r).
Proof.
  destruct (decide (Exists (id_version (Id j) (Version j)) t)) as [Hex|Hno].
  - right. apply Exists_exists in Hex as (r & Hr & Hc).
    split; [by eapply Preempt_update_hit|eauto].
  - left. rewrite <- Forall_Exists_neg, Forall_forall in Hno.
    split; [by apply Preempt_update_miss|done].
Qed.

(** ** Version and ownership in the writes *)

(** C5, as amended: of the writes of the DAO only the claiming UPDATE of
    [Preempt] increments [version] (by one, in the write that sets
    [status] and [updated_at]) and is keyed on [(id, version)]: when no
    row carries the expected pair it affects zero rows and leaves the
    table as it was.  [Release], [UpdateTime] and [UpdateNextTime] are
    keyed on the id alone: they leave every version as it is and write
    the row with that id whatever its version. *)
Theorem C5_only_the_claim_is_versioned (j r : Job) (now : Z) (t : table) :
  r ∈ t ->
  (id_version (Id j) (Version j) r ->
     claimed now r ∈ (Preempt_update None j now t).2 /\
     Version (claimed now r) = GoInt.add (Version r) 1 /\
     Status (claimed now r) = jobStatusRunning /\
     UpdatedTime (claimed now r) = now) /\
  ((forall x, x ∈ t -> ~ id_version (Id j) (Version j) x) ->
     Preempt_update None j now t = (AtSelect, t)) /\
  (forall c, c <> CallPreempt ->
     Version <$> run_call c now t = Version <$> t) /\
  released now r ∈ run_call (CallRelease (Id r)) now t /\
  touched now r ∈ run_call (CallUpdateTime (Id r)) now t /\
  (forall tm,
     rescheduled now tm r ∈ run_call (CallUpdateNextTime (Id r) tm) now t).
Proof.
  intros Hr. split_and!.
  - intros Hc. rewrite (Preempt_update_hit j now t r) by done. simpl.
    split; [|done].
    pose proof (fmap_if_elem (claimed now) (id_version (Id j) (Version j))
                  t r Hr) as Hin.
    by rewrite decide_True in Hin by done.
  - apply Preempt_update_miss.
  - intros [|jobId|id|id tm] Hne; [done|..]; simpl;
      by apply fmap_if_versions.
  - simpl. pose proof (fmap_if_elem (released now) (fun x => Id x = Id r)
                         t r Hr) as Hin.
    by rewrite decide_True in Hin by done.
  - simpl. pose proof (fmap_if_elem (touched now) (fun x => Id x = Id r)
                         t r Hr) as Hin.
    by rewrite decide_True in Hin by done.
  - intros tm. simpl.
    pose proof (fmap_if_elem (rescheduled now tm) (fun x => Id x = Id r)
                  t r Hr) as Hin.
    by rewrite decide_True in Hin by done.
Qed.

Lemma C5_only_the_claim_is_versioned_witness :
  (id_version (Id job1) (Version job1) job1 ->
     claimed 1001 job1 ∈ (Preempt_update None job1 1001 [job1]).2 /\
     Version (claimed 1001 job1) = GoInt.add (Version job1) 1 /\
     Status (claimed 1001 job1) = jobStatusRunning /\
     UpdatedTime (claimed 1001 job1) = 1001) /\
  ((forall x, x ∈ [job1] -> ~ id_version (Id job1) (Version job1) x) ->
     Preempt_update None job1 1001 [job1] = (AtSelect, [job1])) /\
  (forall c, c <> CallPreempt ->
     Version <$> run_call c 1001 [job1] = Version <$> [job1]) /\
  released 1001 job1 ∈ run_call (CallRelease (Id job1)) 1001 [job1] /\
  touched 1001 job1 ∈ run_call (CallUpdateTime (Id job1)) 1001 [job1] /\
  (forall tm,
     rescheduled 1001 tm job1
       ∈ run_call (CallUpdateNextTime (Id job1) tm) 1001 [job1]).
Proof.
  apply (C5_only_the_claim_is_versioned job1 job1 1001 [job1]). left.
Defined.

(** C5, as stated, fails on [Release], [UpdateTime] and [UpdateNextTime]:
    each of them writes the running [job1] (version 6) and leaves its
    version at 6. *)
Lemma C5_release_keeps_version :
  run_call (CallRelease 1) 2000 [job1_running] <> [job1_running] /\
  Version <$> run_call (CallRelease 1) 2000 [job1_running] = [6] /\
  run_call (CallUpdateTime 1) 2000 [job1_running] <> [job1_running] /\
  Version <$> run_call (CallUpdateTime 1) 2000 [job1_running] = [6] /\
  run_call (CallUpdateNextTime 1 9000) 2000 [job1_running] <> [job1_running] /\
  Version <$> run_call (CallUpdateNextTime 1 9000) 2000 [job1_running] = [6] /\
  GoInt.add (Version job1_running) 1 = 7.
Proof. vm_compute. by repeat split. Qed.

(** ** The heartbeat *)

(** C6, as amended: [UpdateTime] refreshes [updated_at] by an update keyed
    on the id alone.  It takes no version and reports nothing but the
    failure of the statement itself; when the statement runs, every row
    with that id gets [updated_at = now], whatever its version and
    whoever claimed it last, and nothing else in the table changes. *)
Theorem C6_heartbeat_keyed_on_id_only
    (fault : option error) (now id : Z) (t : table) :
  (UpdateTime fault now id t).1 = fault /\
  (forall e, fault = Some e -> (UpdateTime fault now id t).2 = t) /\
  (fault = None ->
     (forall r, r ∈ t -> Id r = id ->
        touched now r ∈ (UpdateTime fault now id t).2) /\
     (forall r, r ∈ t -> Id r <> id -> r ∈ (UpdateTime fault now id t).2) /\
     (forall r', r' ∈ (UpdateTime fault now id t).2 ->
        r' ∈ t \/ exists r, r ∈ t /\ Id r = id /\ r' = touched now r) /\
     Version <$> (UpdateTime fault now id t).2 = Version <$> t /\
     Status <$> (UpdateTime fault now id t).2 = Status <$> t).
Proof.
  destruct fault as [e|].
  - rewrite UpdateTime_fault. split_and!; [done| |done]. by intros ? _.
  - rewrite UpdateTime_table. simpl. split_and!; [done|done|]. intros _.
    split_and!.
    + intros r Hr Hid.
      pose proof (fmap_if_elem (touched now) (fun x => Id x = id) t r Hr) as Hin.
      by rewrite decide_True in Hin by done.
    + intros r Hr Hid.
      pose proof (fmap_if_elem (touched now) (fun x => Id x = id) t r Hr) as Hin.
      by rewrite decide_False in Hin by done.
    + intros r' Hr'. apply list_elem_of_fmap in Hr' as (r & -> & Hr).
      destruct (decide (Id r = id)); [right; eauto|by left].
    + by apply fmap_if_versions.
    + rewrite <- list_fmap_compose. apply list_fmap_ext.
      intros _ r _. simpl. by destruct (decide _).
Qed.

(** C6, as stated, fails: after [job1] was handed over to a second worker
    (version 7), the heartbeat of the first worker, whose claim made it
    version 6, returns nil and moves [updated_at] of the row. *)
Lemma C6_stale_heartbeat_writes :
  Version <$> run_calls [(CallPreempt, 1001)] [job1] = [6] /\
  Version <$> handed_over = [7] /\
  Status <$> handed_over = [jobStatusRunning] /\
  (UpdateTime None 41000 1 handed_over).1 = None /\
  (UpdateTime None 41000 1 handed_over).2 <> handed_over /\
  UpdatedTime <$> handed_over = [40001] /\
  UpdatedTime <$> (UpdateTime None 41000 1 handed_over).2 = [41000].
Proof. vm_compute. by repeat split. Qed.

(** ** Release and reschedule *)

Lemma fmap_if_row (f : Job -> Job) (t : table) (r : Job) :
  primary_key t -> r ∈ t -> (forall x, Id (f x) = Id x) ->
  let t' := (fun x => if decide (Id x = Id r) then f x else x) <$> t in
  f r ∈ t' /\ (forall x, x ∈ t' -> Id x = Id r -> x = f r) /\ primary_key t'.
Proof.
  intros Hpk Hr Hf t'. subst t'. split_and!.
  - pose proof (fmap_if_elem f (fun x => Id x = Id r) t r Hr) as Hin.
    by rewrite decide_True in Hin by done.
  - intros x Hx Hid. apply list_elem_of_fmap in Hx as (y & -> & Hy).
    destruct (decide (Id y = Id r)) as [Heq|Hne]; [|done].
    by rewrite (primary_key_inj t y r Hpk Hy Hr Heq).
  - unfold primary_key. rewrite <- list_fmap_compose.
    erewrite list_fmap_ext; [exact Hpk|].
    intros _ x _. simpl. by destruct (decide _).
Qed.

(** C4, as amended: the release after a run is two writes, each keyed on
    the id alone and neither touching [version]: [UpdateNextTime] writes
    [next_time] and [updated_at], [Release] writes [status = Waiting] and
    [updated_at].  After the first of the two, in either order, the row
    has one of the new [next_time] and the status Waiting and not the
    other; after both it has status Waiting, the new [next_time], the
    [updated_at] of the second write and the version it had before. *)
Theorem C4_release_is_two_writes
    (now1 now2 tm : Z) (t : table) (r : Job) :
  primary_key t -> r ∈ t ->
  let final :=
    mkJob (Id r) (Name r) (Executor r) (Expression r) (Cfg r)
          jobStatusWaiting (Version r) tm (CreateTime r) now2 in
  let resched := CallUpdateNextTime (Id r) tm in
  let release := CallRelease (Id r) in
  (forall x, x ∈ run_call resched now1 t -> Id x = Id r ->
     x = rescheduled now1 tm r) /\
  (forall x, x ∈ run_calls [(resched, now1); (release, now2)] t -> Id x = Id r ->
     x = final) /\
  (forall x, x ∈ run_call release now1 t -> Id x = Id r ->
     x = released now1 r) /\
  (forall x, x ∈ run_calls [(release, now1); (resched, now2)] t -> Id x = Id r ->
     x = final) /\
  rescheduled now1 tm r ∈ run_call resched now1 t /\
  released now1 r ∈ run_call release now1 t /\
  final ∈ run_calls [(resched, now1); (release, now2)] t /\
  final ∈ run_calls [(release, now1); (resched, now2)] t.
Proof.
  intros Hpk Hr final resched release. subst resched release.
  unfold run_calls. simpl foldl. unfold run_call.
  rewrite !UpdateNextTime_table, !Release_table. simpl snd.
  destruct (fmap_if_row (rescheduled now1 tm) t r Hpk Hr ltac:(done))
    as (Hin1 & Honly1 & Hpk1).
  destruct (fmap_if_row (released now1) t r Hpk Hr ltac:(done))
    as (Hin2 & Honly2 & Hpk2).
  destruct (fmap_if_row (released now2) _ _ Hpk1 Hin1 ltac:(done))
    as (Hin3 & Honly3 & _).
  destruct (fmap_if_row (rescheduled now2 tm) _ _ Hpk2 Hin2 ltac:(done))
    as (Hin4 & Honly4 & _).
  split_and!; done.
Qed.

Lemma C4_release_is_two_writes_witness :
  let r := job1_running in
  let final :=
    mkJob (Id r) (Name r) (Executor r) (Expression r) (Cfg r)
          jobStatusWaiting (Version r) 9000 (CreateTime r) 5001 in
  let resched := CallUpdateNextTime (Id r) 9000 in
  let release := CallRelease (Id r) in
  (forall x, x ∈ run_call resched 5000 [r] -> Id x = Id r ->
     x = rescheduled 5000 9000 r) /\
  (forall x, x ∈ run_calls [(resched, 5000); (release, 5001)] [r] ->
     Id x = Id r -> x = final) /\
  (forall x, x ∈ run_call release 5000 [r] -> Id x = Id r ->
     x = released 5000 r) /\
  (forall x, x ∈ run_calls [(release, 5000); (resched, 5001)] [r] ->
     Id x = Id r -> x = final) /\
  rescheduled 5000 9000 r ∈ run_call resched 5000 [r] /\
  released 5000 r ∈ run_call release 5000 [r] /\
  final ∈ run_calls [(resched, 5000); (release, 5001)] [r] /\
  final ∈ run_calls [(release, 5000); (resched, 5001)] [r].
Proof.
  apply (C4_release_is_two_writes 5000 5001 9000 [job1_running] job1_running).
  - apply NoDup_singleton.
  - left.
Defined.

(** C4, as stated, fails: [Release] on the running [job1] (version 6, due
    at 1000) writes neither [next_time] nor [version], and the table after
    [UpdateNextTime] alone holds the row with the new due time 9000 and
    still running. *)
Lemma C4_release_writes_status_only :
  (Release None 5000 1 [job1_running]).2
    = [mkJob 1 "report" "local" "*/5 * * * *" "{}" jobStatusWaiting 6 1000 0 5000] /\
  Version <$> (Release None 5000 1 [job1_running]).2 <> [6 + 1] /\
  (UpdateNextTime None 5000 1 9000 [job1_running]).2
    = [mkJob 1 "report" "local" "*/5 * * * *" "{}" jobStatusRunning 6 9000 0 5000] /\
  Status <$> (UpdateNextTime None 5000 1 9000 [job1_running]).2
    <> [jobStatusWaiting].
Proof. vm_compute. by repeat split. Qed.

(** ** [Preempt] on its own *)

(** Run with no other writer in between, [Preempt] returns from its
    first iteration on every table: with the lowest due row, which its
    UPDATE then matches, or with [ErrRecordNotFound]. *)
Lemma Preempt_alone_cases now t :
  (exists j,
     Gorm.First None (due now) t = (j, None) /\
     Preempt_alone now t =
       (Returned j None,
        (fun x => if decide (id_version (Id j) (Version j) x)
                  then claimed now x else x) <$> t)) \/
  (Gorm.First None (due now) t = (zeroJob, Some ErrRecordNotFound) /\
   Preempt_alone now t = (Returned zeroJob (Some ErrRecordNotFound), t)).
Proof.
  unfold Preempt_alone, Preempt_step, Preempt_select.
  destruct (Gorm.First None (due now) t) as [j [e|]] eqn:HF.
  - right. apply First_not_found in HF as (-> & -> & _). done.
  - left. exists j. split; [done|].
    apply First_found in HF as (Hin & _ & _).
    by apply (Preempt_update_hit j now t j).
Qed.

Lemma Preempt_alone_elem now t x :
  x ∈ (Preempt_alone now t).2 -> x ∈ t \/ Status x = jobStatusRunning.
Proof.
  destruct (Preempt_alone_cases now t) as [(j & HF & ->)|[_ ->]]; [|by left].
  simpl. intros Hx. apply list_elem_of_fmap in Hx as (r & -> & Hr).
  destruct (decide _); [by right|by left].
Qed.

(** ** Back to waiting *)

(** C2, as amended: the DAO has no reclaim operation.  The one call
    that returns a running job to Waiting is [Release] with its id: it
    does so whatever the age of [updated_at], by an update keyed on the id
    alone, and leaves the version as it is.  The job, which no SELECT of
    [Preempt] took while it was running, is a candidate again at every
    clock reading after its [next_time]. *)
Theorem C2_release_returns_to_waiting (now : Z) (t : table) (r : Job) :
  primary_key t -> r ∈ t -> Status r = jobStatusRunning ->
  let t' := run_call (CallRelease (Id r)) now t in
  released now r ∈ t' /\
  (forall x, x ∈ t' -> Id x = Id r -> x = released now r) /\
  Status (released now r) = jobStatusWaiting /\
  Version (released now r) = Version r /\
  (forall fault now' c n, Preempt_select fault now' t = AtUpdate c n -> c <> r) /\
  (forall now', NextTime r < now' ->
     exists c, Preempt_select None now' t' = AtUpdate c now' /\
               Id c <= Id r /\
               ((forall x, x ∈ t' -> due now' x -> Id r <= Id x) ->
                c = released now r)) /\
  (forall c now' x,
     x ∈ run_call c now' t -> Id x = Id r -> Status x = jobStatusWaiting ->
     c = CallRelease (Id r)).
Proof.
  intros Hpk Hr Hrun t'. subst t'. unfold run_call at 1 2 3.
  rewrite Release_table. simpl snd.
  destruct (fmap_if_row (released now) t r Hpk Hr ltac:(done))
    as (Hin & Honly & Hpk').
  split_and!; try done.
  - intros fault now' c n Hsel.
    pose proof (Preempt_select_cases fault now' t) as H. rewrite Hsel in H.
    destruct H as (_ & _ & HF). apply First_found in HF as (_ & [Hs _] & _).
    intros ->. by rewrite Hrun in Hs.
  - intros now' Hlt.
    assert (Hdue : due now' (released now r)) by done.
    destruct (First_finds (due now') _ _ Hin Hdue) as [c HF].
    exists c. unfold Preempt_select. rewrite HF. split; [done|].
    apply First_found in HF as (Hc & Hcdue & Hleast).
    split; [by apply (Hleast _ Hin)|].
    intros Hlow. symmetry. eapply primary_key_inj; [exact Hpk'|done..|].
    specialize (Hlow c Hc Hcdue). specialize (Hleast _ Hin Hdue).
    simpl in *. lia.
  - intros c now' x Hx Hid Hs.
    assert (Hnot : x ∈ t -> False).
    { intros Hxt. rewrite (primary_key_inj t x r Hpk Hxt Hr Hid) in Hs.
      by rewrite Hrun in Hs. }
    destruct c as [|jobId|id|id tm]; simpl in Hx.
    + apply Preempt_alone_elem in Hx as [Hx|Hx]; [by destruct Hnot|].
      by rewrite Hx in Hs.
    + apply list_elem_of_fmap in Hx as (y & -> & Hy).
      destruct (decide (has_id jobId y)) as [Hy'|]; [|by destruct Hnot].
      unfold has_id in Hy'. simpl in Hid. congruence.
    + apply list_elem_of_fmap in Hx as (y & -> & Hy).
      destruct (decide (has_id id y)); [|by destruct Hnot].
      simpl in Hid, Hs.
      rewrite (primary_key_inj t y r Hpk Hy Hr Hid) in Hs.
      by rewrite Hrun in Hs.
    + apply list_elem_of_fmap in Hx as (y & -> & Hy).
      destruct (decide (has_id id y)); [|by destruct Hnot].
      simpl in Hid, Hs.
      rewrite (primary_key_inj t y r Hpk Hy Hr Hid) in Hs.
      by rewrite Hrun in Hs.
Qed.

Lemma C2_release_returns_to_waiting_witness :
  let r := job1_running in
  let t' := run_call (CallRelease (Id r)) 40000 [r] in
  released 40000 r ∈ t' /\
  (forall x, x ∈ t' -> Id x = Id r -> x = released 40000 r) /\
  Status (released 40000 r) = jobStatusWaiting /\
  Version (released 40000 r) = Version r /\
  (forall fault now' c n,
     Preempt_select fault now' [r] = AtUpdate c n -> c <> r) /\
  (forall now', NextTime r < now' ->
     exists c, Preempt_select None now' t' = AtUpdate c now' /\
               Id c <= Id r /\
               ((forall x, x ∈ t' -> due now' x -> Id r <= Id x) ->
                c = released 40000 r)) /\
  (forall c now' x,
     x ∈ run_call c now' [r] -> Id x = Id r -> Status x = jobStatusWaiting ->
     c = CallRelease (Id r)).
Proof.
  apply (C2_release_returns_to_waiting 40000 [job1_running] job1_running).
  - apply NoDup_singleton.
  - left.
  - reflexivity.
Defined.

(** C2, as stated, fails: no call of the DAO, at whatever clock reading,
    leaves the running [job1] (version 6, last written at 1001) waiting
    with version 7. *)
Lemma C2_no_call_reclaims :
  ~ exists (c : call) (now : Z) (x : Job),
      x ∈ run_call c now [job1_running] /\
      Status x = jobStatusWaiting /\
      Version x = Version job1_running + 1.
Proof.
  intros (c & now & x & Hx & Hs & Hv).
  destruct c as [|jobId|id|id tm]; unfold run_call in Hx.
  - rewrite Preempt_alone_single_not_due in Hx by (by intros [? _]).
    apply list_elem_of_singleton in Hx as ->. done.
  - rewrite Release_table in Hx. simpl in Hx.
    apply list_elem_of_singleton in Hx as ->.
    by destruct (decide _).
  - rewrite UpdateTime_table in Hx. simpl in Hx.
    apply list_elem_of_singleton in Hx as ->.
    by destruct (decide _).
  - rewrite UpdateNextTime_table in Hx. simpl in Hx.
    apply list_elem_of_singleton in Hx as ->.
    by destruct (decide _).
Qed.

(** ** What [Preempt] returns *)

Lemma Preempt_run_returned turns j e t :
  Preempt_run turns (Returned j e) t
  = (Returned j e, foldl (fun acc u => run_calls (before u) acc) t turns).
Proof.
  revert t. induction turns as [|u rest IH]; intros t; simpl; [done|].
  apply IH.
Qed.

Lemma Preempt_step_as_read fault now p t :
  as_read p -> as_read (Preempt_step fault now p t).1.
Proof.
  intros Hp. destruct p as [|j now0|j e]; cbn [Preempt_step fst].
  - pose proof (Preempt_select_cases fault now t) as H.
    destruct (Preempt_select fault now t) as [|c n|c [e|]]; try done.
    destruct H as (_ & _ & HF).
    by apply First_found in HF as (_ & [Hs _] & _).
  - destruct fault as [f|]; cbn [error_of]; [done|].
    by destruct (Preempt_update_cases j now0 t) as [[-> _]|[-> _]].
  - done.
Qed.

Lemma Preempt_run_success turns p t j t' :
  as_read p -> ~ returned p ->
  Preempt_run turns p t = (Returned j None, t') ->
  Status j = jobStatusWaiting /\
  exists pre u post now tu,
    turns = pre ++ u :: post /\
    Preempt_run pre p t = (AtUpdate j now, tu) /\
    fault u = None /\
    Preempt_update None j now (run_calls (before u) tu)
      = (Returned j None,
         (fun x => if decide (id_version (Id j) (Version j) x)
                   then claimed now x else x) <$> run_calls (before u) tu) /\
    exists r, r ∈ run_calls (before u) tu /\ Id r = Id j /\
              Version r = Version j.
Proof.
  revert p t. induction turns as [|u rest IH]; intros p t Hread Hnr; simpl.
  { intros [= -> _]. by destruct Hnr. }
  pose proof (Preempt_step_as_read (fault u) (clock u) p
                (run_calls (before u) t) Hread) as Hread'.
  destruct (Preempt_step (fault u) (clock u) p (run_calls (before u) t))
    as [p1 t1] eqn:Hstep.
  simpl in Hread'. intros Hrun.
  destruct (decide (returned p1)) as [Hret|Hnret].
  - destruct p1 as [| |j1 e1]; try done.
    rewrite Preempt_run_returned in Hrun. injection Hrun as -> -> _.
    destruct p as [|j0 now0|]; cbn [Preempt_step] in Hstep;
      [| |by destruct Hnr].
    + pose proof (Preempt_select_cases (fault u) (clock u)
                    (run_calls (before u) t)) as H.
      injection Hstep as Hsel _. rewrite Hsel in H. done.
    + destruct (fault u) as [f|] eqn:Hfault; cbn [error_of] in Hstep;
        [by rewrite Preempt_update_fault in Hstep|].
      destruct (Preempt_update_cases j0 now0 (run_calls (before u) t))
        as [[Hmiss _]|[Hhit (r & Hr & Hid & Hv)]].
      * by rewrite Hmiss in Hstep.
      * rewrite Hhit in Hstep. injection Hstep as -> _.
        split; [done|].
        exists [], u, rest, now0, t. split_and!; try done. eauto.
  - destruct (IH p1 t1 Hread' Hnret Hrun)
      as (Hs & pre & u' & post & now & tu & -> & Hpre & Hf & Hup & Hex).
    split; [done|].
    exists (u :: pre), u', post, now, tu. split_and!; try done.
    simpl. by rewrite Hstep.
Qed.

(** C7, as amended: whenever [Preempt] succeeds, the [Job] it returns is
    the candidate as its SELECT read it, with status Waiting and the
    version that was read; the updated state is in the table only, where
    the UPDATE that succeeded left the row with status Running, the read
    version incremented and [updated_at] at the clock reading of that
    iteration. *)
Theorem C7_returns_the_row_as_read
    (turns : list turn) (t : table) (j : Job) (t' : table) :
  Preempt turns t = (Returned j None, t') ->
  Status j = jobStatusWaiting /\
  exists pre u post now tu,
    turns = pre ++ u :: post /\
    Preempt pre t = (AtUpdate j now, tu) /\
    fault u = None /\
    let before_update := run_calls (before u) tu in
    let after_update := (Preempt_update None j now before_update).2 in
    (Preempt_update None j now before_update).1 = Returned j None /\
    exists r, r ∈ before_update /\ Id r = Id j /\ Version r = Version j /\
              claimed now r ∈ after_update /\
              Status (claimed now r) = jobStatusRunning /\
              Version (claimed now r) = GoInt.add (Version j) 1 /\
              UpdatedTime (claimed now r) = now.
Proof.
  unfold Preempt. intros Hrun.
  destruct (Preempt_run_success turns AtSelect t j t' I (fun H => H) Hrun)
    as (Hs & pre & u & post & now & tu & -> & Hpre & Hf & Hup & r & Hr & Hid & Hv).
  split; [done|].
  exists pre, u, post, now, tu. cbv zeta. rewrite Hup. cbn [fst snd].
  split_and!; try done.
  exists r. split_and!; try done; [|simpl; by rewrite Hv].
  pose proof (fmap_if_elem (claimed now) (id_version (Id j) (Version j))
                _ r Hr) as Hin.
  by rewrite decide_True in Hin by done.
Qed.

Lemma C7_returns_the_row_as_read_witness :
  let turns := [mkTurn [] None 1001; mkTurn [] None 1002] in
  Status job1 = jobStatusWaiting /\
  exists pre u post now tu,
    turns = pre ++ u :: post /\
    Preempt pre [job1] = (AtUpdate job1 now, tu) /\
    fault u = None /\
    let before_update := run_calls (before u) tu in
    let after_update := (Preempt_update None job1 now before_update).2 in
    (Preempt_update None job1 now before_update).1 = Returned job1 None /\
    exists r, r ∈ before_update /\ Id r = Id job1 /\
              Version r = Version job1 /\
              claimed now r ∈ after_update /\
              Status (claimed now r) = jobStatusRunning /\
              Version (claimed now r) = GoInt.add (Version job1) 1 /\
              UpdatedTime (claimed now r) = now.
Proof.
  apply (C7_returns_the_row_as_read
           [mkTurn [] None 1001; mkTurn [] None 1002] [job1] job1
           [job1_running]).
  vm_compute. reflexivity.
Defined.

(** C7, as stated, fails: [Preempt] at 1001 on the table holding [job1]
    (waiting, version 5) writes status Running and version 6 and returns
    the job with status Waiting and version 5, a row that is no longer in
    the table. *)
Lemma C7_returned_job_is_stale :
  Preempt_alone 1001 [job1] = (Returned job1 None, [job1_running]) /\
  Status job1 <> jobStatusRunning /\
  Version job1 <> 5 + 1 /\
  job1 <> job1_running /\
  Status <$> [job1_running] = [jobStatusRunning] /\
  Version <$> [job1_running] = [5 + 1].
Proof. vm_compute. by repeat split. Qed.

(** ** Retries *)

Lemma Preempt_run_app pre post p t :
  Preempt_run (pre ++ post) p t
  = Preempt_run post (Preempt_run pre p t).1 (Preempt_run pre p t).2.
Proof.
  revert p t. induction pre as [|u pre IH]; intros p t; simpl; [done|].
  destruct (Preempt_step _ _ _ _) as [p1 t1]. apply IH.
Qed.

Lemma contended_iteration_run v upd :
  Preempt_run (contended_iteration 1 2000) AtSelect [job1_at v upd]
  = (AtSelect, [job1_at (GoInt.add v 1) 2000]).
Proof.
  assert (H1 : Preempt_step None 2000 AtSelect [job1_at v upd]
               = (AtUpdate (job1_at v upd) 2000, [job1_at v upd])).
  { unfold Preempt_step, Preempt_select, Gorm.First.
    by rewrite filter_cons_True by done. }
  assert (H2 : run_calls [(CallPreempt, 2000); (CallRelease 1, 2000)]
                 [job1_at v upd]
               = [job1_at (GoInt.add v 1) 2000]).
  { unfold run_calls. cbn [foldl fst snd run_call].
    rewrite Preempt_alone_single_due by done.
    rewrite Release_table. cbn [snd].
    rewrite claim_fields_assign by done.
    cbn [fmap list_fmap]. by rewrite decide_True by done. }
  unfold contended_iteration. cbn [Preempt_run fault clock before].
  change (run_calls [] [job1_at v upd]) with [job1_at v upd].
  rewrite H1, H2. unfold Preempt_step.
  rewrite Preempt_update_miss; [done|].
  intros r Hr [_ Hv]. apply list_elem_of_singleton in Hr as ->.
  simpl in Hv. by apply add_1_neq in Hv.
Qed.

Lemma length_contended n id now : length (contended n id now) = (2 * n)%nat.
Proof. induction n as [|n IH]; simpl; [done|]. rewrite IH. lia. Qed.

(** However often the iteration is repeated, the call is back at its
    SELECT. *)
Lemma contended_run n v upd :
  exists upd',
    Preempt_run (contended n 1 2000) AtSelect [job1_at v upd]
    = (AtSelect, [job1_at (add_n n v) upd']).
Proof.
  revert v upd. induction n as [|n IH]; intros v upd.
  - by exists upd.
  - change (contended (S n) 1 2000)
      with (contended_iteration 1 2000 ++ contended n 1 2000).
    rewrite Preempt_run_app, contended_iteration_run. apply IH.
Qed.

(** C3, as stated, fails: [Preempt] has no bound on its retries.  With
    another worker claiming and releasing [job1] between every SELECT and
    UPDATE of the call, three iterations leave the call at its SELECT
    again (and [job1] at version 8), and so does any number of them. *)
Lemma C3_preempt_retries_without_bound :
  Preempt (contended 3 1 2000) [job1] = (AtSelect, [job1_at 8 2000]) /\
  ~ exists bound : nat,
      forall turns : list turn,
        (2 * bound <= length turns)%nat ->
        returned (Preempt turns [job1]).1.
Proof.
  unfold Preempt. split; [by vm_compute|].
  intros [bound Hbound].
  specialize (Hbound (contended bound 1 2000)).
  rewrite length_contended in Hbound. specialize (Hbound (le_n _)).
  destruct (contended_run bound 5 0) as [upd' Hrun].
  change (job1_at 5 0) with job1 in Hrun. by rewrite Hrun in Hbound.
Qed.

Lemma Preempt_run_stays_returned turns p t :
  returned p -> returned (Preempt_run turns p t).1.
Proof.
  destruct p as [| |j e]; [done..|]. intros _.
  by rewrite Preempt_run_returned.
Qed.

(** A call that stands before its UPDATE after at least one statement
    holds a candidate that is in the table: nothing was written since its
    SELECT. *)
Lemma Preempt_run_candidate turns p t j now tu :
  Preempt_run turns p t = (AtUpdate j now, tu) ->
  (turns = [] /\ p = AtUpdate j now) \/ j ∈ tu.
Proof.
  revert p t. induction turns as [|u rest IH]; intros p t; cbn [Preempt_run].
  { intros [= -> _]. by left. }
  destruct (Preempt_step (fault u) (clock u) p (run_calls (before u) t))
    as [p1 t1] eqn:Hstep.
  intros Hrun. right.
  destruct (IH p1 t1 Hrun) as [[-> ->]|Hin]; [|done].
  cbn [Preempt_run] in Hrun. injection Hrun as ->.
  destruct p as [|c n|c e]; cbn [Preempt_step] in Hstep.
  - injection Hstep as Hsel <-.
    pose proof (Preempt_select_cases (fault u) (clock u)
                  (run_calls (before u) t)) as H.
    rewrite Hsel in H. destruct H as (_ & _ & HF).
    by apply First_found in HF as (? & _).
  - destruct (fault u) as [f|]; cbn [error_of] in Hstep.
    + by rewrite Preempt_update_fault in Hstep.
    + by destruct (Preempt_update_cases c n (run_calls (before u) t))
        as [[Hc _]|[Hc _]]; rewrite Hc in Hstep.
  - done.
Qed.

(** What one statement of a call that has not returned can do. *)
Lemma Preempt_step_paths fault now p t :
  ~ returned p ->
  match Preempt_step fault now p t with
  | (AtSelect, t') =>
      t' = t /\ fault = None /\
      exists c n, p = AtUpdate c n /\
                  forall r, r ∈ t -> ~ id_version (Id c) (Version c) r
  | (AtUpdate c n, t') =>
      t' = t /\ fault = None /\ p = AtSelect /\ n = now /\
      c ∈ t /\ due now c /\
      forall r, r ∈ t -> due now r -> Id c <= Id r
  | (Returned c None, t') =>
      fault = None /\
      exists n, p = AtUpdate c n /\
                (exists r, r ∈ t /\ id_version (Id c) (Version c) r) /\
                t' = (fun x => if decide (id_version (Id c) (Version c) x)
                               then claimed n x else x) <$> t
  | (Returned c (Some e), t') =>
      t' = t /\
      ((exists f, fault = Some f /\ e = failed_with f /\
                  (p = AtSelect -> c = scanned f) /\
                  (p <> AtSelect -> c = zeroJob)) \/
       (fault = None /\ p = AtSelect /\ e = ErrRecordNotFound /\
        c = zeroJob /\ forall r, r ∈ t -> ~ due now r))
  end.
Proof.
  intros Hnr. destruct p as [|c n|c e]; cbn [Preempt_step]; [| |by destruct Hnr].
  - pose proof (Preempt_select_cases fault now t) as H.
    destruct (Preempt_select fault now t) as [|c n|c [e|]]; [done| | |done].
    + destruct H as (-> & -> & HF).
      apply First_found in HF as (? & ? & ?). by split_and!.
    + split; [done|]. destruct H as [(f & -> & -> & ->)|(-> & -> & HF)].
      * left. exists f. by split_and!.
      * apply First_not_found in HF as (_ & -> & Hno). right. by split_and!.
  - destruct fault as [f|]; cbn [error_of].
    + rewrite Preempt_update_fault. split; [done|]. left.
      exists f. by split_and!.
    + destruct (Preempt_update_cases c n t) as [[-> Hmiss]|[-> Hhit]].
      * split_and!; [done..|]. by exists c, n.
      * split; [done|]. by exists n.
Qed.

(** C3, as amended: [Preempt] carries no attempt count and has no
    Contention result.  A statement of it either returns the call (the
    SELECT found no due row: [ErrRecordNotFound]; the statement failed:
    its error; the UPDATE matched: the candidate) or leads to the next
    statement; a compare-and-swap that affected no row leads back to the
    SELECT, where the call goes on as a call just begun would, and that
    any number of times.  A call that stands before its UPDATE, no other
    process writing before that UPDATE, returns from this iteration,
    whatever was written before the SELECT; a call that runs alone returns
    from its first iteration, on every table. *)
Theorem C3_preempt_retries_until_an_undisturbed_update
    (pre : list turn) (u : turn) (rest : list turn)
    (t tu : table) (j : Job) (now : Z) :
  Preempt pre t = (AtUpdate j now, tu) ->
  before u = [] ->
  (Preempt (pre ++ u :: rest) t).1
  = match fault u with
    | None => Returned j None
    | Some f => Returned zeroJob (Some (failed_with f))
    end /\
  (forall fault now' p t1,
     ~ returned p ->
     match Preempt_step fault now' p t1 with
     | (AtSelect, t') =>
         t' = t1 /\ fault = None /\
         exists c n, p = AtUpdate c n /\
                     forall r, r ∈ t1 -> ~ id_version (Id c) (Version c) r
     | (AtUpdate c n, t') =>
         t' = t1 /\ fault = None /\ p = AtSelect /\ n = now' /\
         c ∈ t1 /\ due now' c /\
         forall r, r ∈ t1 -> due now' r -> Id c <= Id r
     | (Returned c None, t') =>
         fault = None /\
         exists n, p = AtUpdate c n /\
                   (exists r, r ∈ t1 /\ id_version (Id c) (Version c) r) /\
                   t' = (fun x => if decide (id_version (Id c) (Version c) x)
                                  then claimed n x else x) <$> t1
     | (Returned c (Some e), t') =>
         t' = t1 /\
         ((exists f, fault = Some f /\ e = failed_with f /\
                     (p = AtSelect -> c = scanned f) /\
                     (p <> AtSelect -> c = zeroJob)) \/
          (fault = None /\ p = AtSelect /\ e = ErrRecordNotFound /\
           c = zeroJob /\ forall r, r ∈ t1 -> ~ due now' r))
     end) /\
  (forall tried again t0 t',
     Preempt tried t0 = (AtSelect, t') ->
     Preempt (tried ++ again) t0 = Preempt again t') /\
  (forall n,
     length (contended n 1 2000) = (2 * n)%nat /\
     (Preempt (contended n 1 2000) [job1]).1 = AtSelect) /\
  (forall t0 now0,
     returned (Preempt_alone now0 t0).1 /\
     Preempt [mkTurn [] None now0; mkTurn [] None now0] t0
       = Preempt_alone now0 t0).
Proof.
  unfold Preempt. intros Hpre Hquiet. split_and!.
  - rewrite Preempt_run_app, Hpre. cbn [fst snd Preempt_run Preempt_step].
    rewrite Hquiet. change (run_calls [] tu) with tu.
    destruct (Preempt_run_candidate pre AtSelect t j now tu Hpre)
      as [[_ ?]|Hj]; [done|].
    destruct (fault u) as [f|]; cbn [error_of].
    + rewrite Preempt_update_fault. by rewrite Preempt_run_returned.
    + rewrite (Preempt_update_hit j now tu j) by done.
      by rewrite Preempt_run_returned.
  - apply Preempt_step_paths.
  - intros tried again t0 t' Htried. by rewrite Preempt_run_app, Htried.
  - intros n. split; [apply length_contended|].
    destruct (contended_run n 5 0) as [upd' Hrun].
    change (job1_at 5 0) with job1 in Hrun. by rewrite Hrun.
  - intros t0 now0. split.
    + by destruct (Preempt_alone_cases now0 t0) as [(c & _ & ->)|[_ ->]].
    + unfold Preempt_alone. cbn [Preempt_run fault clock before].
      change (run_calls [] t0) with t0.
      destruct (Preempt_step None now0 AtSelect t0) as [p1 t1].
      change (run_calls [] t1) with t1.
      by destruct (Preempt_step None now0 p1 t1).
Qed.

Lemma C3_preempt_retries_until_an_undisturbed_update_witness :
  Preempt contended_then_select [job1]
    = (AtUpdate (job1_at 8 2001) 2001, [job1_at 8 2001]) /\
  (Preempt (contended_then_select ++ [mkTurn [] None 2002]) [job1]).1
    = Returned (job1_at 8 2001) None.
Proof.
  split; [by vm_compute|].
  destruct (C3_preempt_retries_until_an_undisturbed_update
              contended_then_select (mkTurn [] None 2002) [] [job1]
              [job1_at 8 2001] (job1_at 8 2001) 2001)
    as [Hreturns _]; [by vm_compute|reflexivity|].
  exact Hreturns.
Defined.

(** ** The like toggle *)

(** C10, as amended: [Like] looks up whether the user liked the item,
    drops the error of the lookup and follows the boolean alone: on
    [true] it decrements the like counter ([DecrLike]), on [false] it
    increments ([IncrLike]), in both cases whether or not the lookup
    returned an error next to the boolean.  What [Like] does and returns
    is what it would with the error of the lookup taken away: the result
    of [DecrLike] or [IncrLike]. *)
Theorem C10_like_follows_the_flag_whatever_the_error
    {St : Type} (repo : Interactive.InteractiveRepository St)
    (biz : string) (id uid : Z) (s s1 : St)
    (liked : bool) (err : option error) :
  Interactive.Liked repo biz id uid s = ((liked, err), s1) ->
  Interactive.Like repo biz id uid s
  = (if liked then Interactive.DecrLike repo biz id uid s1
     else Interactive.IncrLike repo biz id uid s1) /\
  Interactive.Like (forget_lookup_error repo) biz id uid s
  = Interactive.Like repo biz id uid s.
Proof.
  intros Hlookup. unfold Interactive.Like, forget_lookup_error.
  cbn [Interactive.Liked Interactive.IncrLike Interactive.DecrLike].
  by rewrite Hlookup.
Qed.

(** With the lookup failing and answering [false], [Like] by a user who
    already likes the item increments the counter a second time and
    returns nil. *)
Lemma C10_like_follows_the_flag_whatever_the_error_witness :
  Interactive.Liked Interactive.memRepo "article" 7 42 liked_once_lookup_down
    = ((false, Some (ErrDB "lookup failed")), liked_once_lookup_down) /\
  Interactive.count_of "article" 7 liked_once_lookup_down = 1 /\
  (Interactive.Like Interactive.memRepo "article" 7 42
     liked_once_lookup_down).1 = None /\
  Interactive.count_of "article" 7
    (Interactive.Like Interactive.memRepo "article" 7 42
       liked_once_lookup_down).2 = 2.
Proof.
  pose proof (C10_like_follows_the_flag_whatever_the_error
                Interactive.memRepo
                "article" 7 42 liked_once_lookup_down liked_once_lookup_down
                false (Some (ErrDB "lookup failed")) eq_refl)
    as [Hlike _].
  rewrite Hlike. vm_compute. by repeat split.
Defined.

(** C10, as stated, fails on a lookup that fails and answers [true]:
    [Like] then decrements where the claim has it increment.  The user
    likes article 7, whose counter stands at 1; the lookup answers [true]
    and reports its failure; [Like] takes the counter to 0. *)
Lemma C10_failed_lookup_answering_true_decrements :
  Interactive.Liked answeringRepo "article" 7 42 liked_once_lookup_down
    = ((true, Some (ErrDB "lookup failed")), liked_once_lookup_down) /\
  Interactive.Like answeringRepo "article" 7 42 liked_once_lookup_down
    = Interactive.DecrLike answeringRepo "article" 7 42
        liked_once_lookup_down /\
  Interactive.Like answeringRepo "article" 7 42 liked_once_lookup_down
    <> Interactive.IncrLike answeringRepo "article" 7 42
         liked_once_lookup_down /\
  Interactive.count_of "article" 7
    (Interactive.Like answeringRepo "article" 7 42
       liked_once_lookup_down).2 = 0 /\
  ~ (forall (repo : Interactive.InteractiveRepository Interactive.mem)
            biz id uid s liked e s1,
       Interactive.Liked repo biz id uid s = ((liked, Some e), s1) ->
       Interactive.Like repo biz id uid s
       = Interactive.IncrLike repo biz id uid s1).
Proof.
  assert (Hne : Interactive.Like answeringRepo "article" 7 42
                  liked_once_lookup_down
                <> Interactive.IncrLike answeringRepo "article" 7 42
                     liked_once_lookup_down) by (vm_compute; congruence).
  split_and!; [by vm_compute|by vm_compute|exact Hne|by vm_compute|].
  intros Hall. apply Hne.
  by apply (Hall answeringRepo "article" 7 42 liked_once_lookup_down
              true (ErrDB "lookup failed") liked_once_lookup_down).
Qed.

(** ** Mutual exclusion *)

Lemma system_step_idle s e :
  workers s !! who e = None -> system_step s e = s.
Proof. unfold system_step. by intros ->. Qed.

Lemma system_step_at s e p :
  workers s !! who e = Some p ->
  system_step s e =
  mkSystem (Preempt_step (ev_fault e) (ev_clock e) p (jobs s)).2
           (<[who e := (Preempt_step (ev_fault e) (ev_clock e) p (jobs s)).1]>
              (workers s)).
Proof.
  unfold system_step. intros ->. by destruct (Preempt_step _ _ _ _).
Qed.

Lemma consistent_start t n : primary_key t -> consistent (start t n).
Proof.
  intros Hpk. split; simpl; [done|..]; unfold owner; simpl.
  - intros k j now Hk. by apply lookup_replicate in Hk as [? _].
  - intros k j Hk. by apply lookup_replicate in Hk as [? _].
  - intros a b ja jb Ha. by apply lookup_replicate in Ha as [? _].
Qed.

(** A worker moves and the table stays: nothing is lost as long as the
    worker does not come back with a job, and holds a candidate only if it
    is in the table. *)
Lemma consistent_local s k p' :
  consistent s ->
  (forall j now, p' = AtUpdate j now -> fresh j (jobs s)) ->
  (forall j, p' <> Returned j None) ->
  consistent (mkSystem (jobs s) (<[k := p']> (workers s))).
Proof.
  intros [Hpk Hcand Hown Hexcl] Hnew Hnot.
  split; simpl; [done|..]; unfold owner in *; simpl.
  - intros k' j now Hk'.
    apply list_lookup_insert_Some in Hk' as [(-> & -> & _)|[_ Hk']].
    + left. by eapply Hnew.
    + by eapply Hcand.
  - intros k' j Hk'.
    apply list_lookup_insert_Some in Hk' as [(_ & Hp & _)|[_ Hk']].
    + by destruct (Hnot j).
    + by eapply Hown.
  - intros a b ja jb Ha Hb.
    apply list_lookup_insert_Some in Ha as [(_ & Hp & _)|[_ Ha]];
      [by destruct (Hnot ja)|].
    apply list_lookup_insert_Some in Hb as [(_ & Hp & _)|[_ Hb]];
      [by destruct (Hnot jb)|].
    by eapply Hexcl.
Qed.

(** The compare-and-swap of worker [k] matches a row. *)
Lemma consistent_claim s k j now r :
  consistent s ->
  workers s !! k = Some (AtUpdate j now) ->
  r ∈ jobs s -> id_version (Id j) (Version j) r ->
  consistent
    (mkSystem ((fun x => if decide (id_version (Id j) (Version j) x)
                         then claimed now x else x) <$> jobs s)
              (<[k := Returned j None]> (workers s))).
Proof.
  intros [Hpk Hcand Hown Hexcl] Hk Hr [Hid Hv].
  set (t := jobs s) in *.
  set (t' := (fun x => if decide (id_version (Id j) (Version j) x)
                       then claimed now x else x) <$> t).
  assert (Hfresh : fresh j t).
  { destruct (Hcand k j now Hk) as [|(r' & Hr' & Hid' & _ & Hv')]; [done|].
    destruct Hv'. rewrite <- Hv. f_equal.
    eapply primary_key_inj; [done..|congruence]. }
  destruct Hfresh as [Hj Hwait].
  assert (Hmatch : forall x, x ∈ t -> id_version (Id j) (Version j) x -> x = j).
  { intros x Hx [Hxid _]. by eapply primary_key_inj. }
  assert (Hkeep : forall x, x ∈ t -> x <> j -> x ∈ t').
  { intros x Hx Hne.
    pose proof (fmap_if_elem (claimed now) (id_version (Id j) (Version j))
                  t x Hx) as Hin.
    rewrite decide_False in Hin; [done|]. intros Hm. by apply Hne, Hmatch. }
  assert (Hnew : claimed now j ∈ t').
  { pose proof (fmap_if_elem (claimed now) (id_version (Id j) (Version j))
                  t j Hj) as Hin.
    by rewrite decide_True in Hin by done. }
  assert (Hrunning : forall x, x ∈ t -> Status x = jobStatusRunning -> x ∈ t').
  { intros x Hx Hs. apply Hkeep; [done|]. intros ->. by rewrite Hwait in Hs. }
  assert (Hno_owner : forall b jb,
            workers s !! b = Some (Returned jb None) -> Id jb <> Id j).
  { intros b jb Hb Heq.
    destruct (Hown b jb Hb) as (_ & r' & Hr' & Hid' & Hs' & _).
    assert (r' = j) as -> by (eapply primary_key_inj; [done..|congruence]).
    by rewrite Hwait in Hs'. }
  split; simpl; unfold owner in *; simpl.
  - unfold primary_key, t'. rewrite <- list_fmap_compose.
    erewrite list_fmap_ext; [exact Hpk|].
    intros _ x _. simpl. by destruct (decide _).
  - intros k' j2 n2 Hk'.
    apply list_lookup_insert_Some in Hk' as [(_ & ? & _)|[_ Hk']]; [done|].
    destruct (Hcand k' j2 n2 Hk') as [[Hj2 Hw2]|(r2 & Hr2 & Hid2 & Hs2 & Hv2)].
    + destruct (decide (j2 = j)) as [->|Hne].
      * right. exists (claimed now j). split_and!; [done..|].
        simpl. apply add_1_neq.
      * left. split; [by apply Hkeep|done].
    + right. exists r2. split_and!; [by apply Hrunning|done..].
  - intros k' j3 Hk'.
    apply list_lookup_insert_Some in Hk' as [(_ & [= <-] & _)|[_ Hk']].
    + split; [done|]. exists (claimed now j). by split_and!.
    + destruct (Hown k' j3 Hk') as (Hw3 & r3 & Hr3 & Hid3 & Hs3 & Hv3).
      split; [done|]. exists r3. split_and!; [by apply Hrunning|done..].
  - intros a b ja jb Ha Hb Heq.
    apply list_lookup_insert_Some in Ha as [(-> & [= <-] & _)|[Hak Ha]];
      apply list_lookup_insert_Some in Hb as [(-> & [= <-] & _)|[Hbk Hb]].
    + done.
    + by destruct (Hno_owner b jb Hb).
    + by destruct (Hno_owner a ja Ha).
    + by eapply Hexcl.
Qed.

Lemma consistent_step s e : consistent s -> consistent (system_step s e).
Proof.
  intros Hs. destruct (workers s !! who e) as [p|] eqn:Hp;
    [|by rewrite system_step_idle].
  rewrite (system_step_at s e p Hp).
  destruct p as [|j now|j err]; cbn [Preempt_step fst snd].
  - apply consistent_local; [done|..].
    + intros j now Hsel.
      pose proof (Preempt_select_cases (ev_fault e) (ev_clock e) (jobs s)) as H.
      rewrite Hsel in H. destruct H as (_ & _ & HF).
      by apply First_found in HF as (? & [? _] & _).
    + intros j Hsel.
      pose proof (Preempt_select_cases (ev_fault e) (ev_clock e) (jobs s)) as H.
      by rewrite Hsel in H.
  - destruct (ev_fault e) as [err|]; cbn [error_of].
    { rewrite Preempt_update_fault. by apply consistent_local. }
    destruct (Preempt_update_cases j now (jobs s))
      as [[-> _]|[-> (r & Hr & Hm)]]; cbn [fst snd].
    + by apply consistent_local.
    + by eapply consistent_claim.
  - rewrite list_insert_id by done. by destruct s.
Qed.

Lemma consistent_run es s : consistent s -> consistent (run_system es s).
Proof.
  revert s. induction es as [|e es IH]; intros s Hs; [done|].
  apply IH. by apply consistent_step.
Qed.

(** ** Workers contending for one due job *)

Lemma First_none (cond : Job -> Prop) `{!forall r, Decision (cond r)} t :
  (forall r, r ∈ t -> ~ cond r) ->
  Gorm.First None cond t = (zeroJob, Some ErrRecordNotFound).
Proof.
  intros Hno. unfold Gorm.First.
  destruct (Gorm.lowest (filter cond t)) as [m|] eqn:Hlow; [|done].
  apply lowest_elem, list_elem_of_filter in Hlow as [Hc Hm].
  by destruct (Hno m Hm).
Qed.

Lemma turns_of_cons k e es :
  turns_of k (e :: es)
  = ((if decide (who e = k) then 1 else 0) + turns_of k es)%nat.
Proof.
  unfold turns_of. rewrite filter_cons. by destruct (decide (who e = k)).
Qed.

Lemma system_step_length s e :
  length (workers (system_step s e)) = length (workers s).
Proof.
  destruct (workers s !! who e) as [p|] eqn:Hp.
  - rewrite (system_step_at s e p Hp). simpl. apply length_insert.
  - by rewrite system_step_idle.
Qed.

Lemma run_system_length es s :
  length (workers (run_system es s)) = length (workers s).
Proof.
  revert s. induction es as [|e es IH]; intros s; [done|].
  change (run_system (e :: es) s) with (run_system es (system_step s e)).
  by rewrite IH, system_step_length.
Qed.

Section one_due_job.
Context (t0 : table) (j0 : Job).
Hypothesis Hj0 : j0 ∈ t0.
Hypothesis Hwait : Status j0 = jobStatusWaiting.
Hypothesis Honly : forall r, r ∈ t0 -> Status r = jobStatusWaiting -> r = j0.

Lemma select_unclaimed c :
  NextTime j0 < c -> Preempt_select None c t0 = AtUpdate j0 c.
Proof.
  intros Hc. unfold Preempt_select.
  destruct (First_finds (due c) t0 j0 Hj0 ltac:(done)) as [j HF].
  rewrite HF. apply First_found in HF as (Hj & [Hs _] & _).
  by rewrite (Honly j Hj Hs).
Qed.

Lemma update_unclaimed n :
  Preempt_update None j0 n t0 = (Returned j0 None, after_claim j0 n t0).
Proof. by apply (Preempt_update_hit j0 n t0 j0). Qed.

Lemma after_claim_elem n x :
  x ∈ after_claim j0 n t0 ->
  (Status x = jobStatusRunning /\ Version x = GoInt.add (Version j0) 1) \/
  (x ∈ t0 /\ ~ id_version (Id j0) (Version j0) x).
Proof.
  intros Hx. apply list_elem_of_fmap in Hx as (y & -> & Hy).
  destruct (decide _) as [[_ Hv]|]; [left|by right].
  simpl. by rewrite Hv.
Qed.

Lemma after_claim_claimed n : claimed n j0 ∈ after_claim j0 n t0.
Proof.
  pose proof (fmap_if_elem (claimed n) (id_version (Id j0) (Version j0))
                t0 j0 Hj0) as Hin.
  by rewrite decide_True in Hin by done.
Qed.

Lemma after_claim_gone n : j0 ∉ after_claim j0 n t0.
Proof.
  intros Hin. apply after_claim_elem in Hin as [[Hs _]|[_ Hne]].
  - by rewrite Hwait in Hs.
  - by destruct Hne.
Qed.

Lemma select_claimed n c :
  Preempt_select None c (after_claim j0 n t0)
  = Returned zeroJob (Some ErrRecordNotFound).
Proof.
  unfold Preempt_select. rewrite First_none; [done|].
  intros r Hr [Hs _]. apply after_claim_elem in Hr as [[Hs' _]|[Hr Hne]].
  - by rewrite Hs in Hs'.
  - apply Hne. by rewrite (Honly r Hr Hs).
Qed.

Lemma update_claimed n m :
  Preempt_update None j0 m (after_claim j0 n t0)
  = (AtSelect, after_claim j0 n t0).
Proof.
  apply Preempt_update_miss. intros r Hr Hm.
  apply after_claim_elem in Hr as [[_ Hv]|[_ Hne]]; [|done].
  destruct Hm as [_ Hv']. rewrite Hv' in Hv. symmetry in Hv.
  by apply add_1_neq in Hv.
Qed.

Lemma left_to_run_unclaimed : left_to_run j0 t0 AtSelect = 3%nat.
Proof. unfold left_to_run. by rewrite decide_True. Qed.

Lemma left_to_run_claimed n :
  left_to_run j0 (after_claim j0 n t0) AtSelect = 1%nat.
Proof.
  unfold left_to_run. rewrite decide_False; [done|]. apply after_claim_gone.
Qed.

Lemma left_to_run_bound t p : (left_to_run j0 t p <= 3)%nat.
Proof. destruct p; simpl; [destruct (decide _)|..]; lia. Qed.

(** Worker [k] moves from [p] to [p'] and the table goes from [t] to
    [t']. *)
Lemma move_measure (ws : list pc) k p p' t t' :
  ws !! k = Some p ->
  (forall q, left_to_run j0 t' q <= left_to_run j0 t q)%nat ->
  (left_to_run j0 t' p' <= left_to_run j0 t p - 1)%nat ->
  forall k2 q, ws !! k2 = Some q ->
    exists q', <[k := p']> ws !! k2 = Some q' /\
      (left_to_run j0 t' q'
       <= left_to_run j0 t q - (if decide (k = k2) then 1 else 0))%nat.
Proof.
  intros Hk Hmono Hdec k2 q Hq. destruct (decide (k = k2)) as [<-|Hne].
  - exists p'. rewrite list_lookup_insert_eq by by eapply lookup_lt_Some.
    split; [done|]. by simplify_eq.
  - exists q. rewrite list_lookup_insert_ne by done.
    split; [done|]. specialize (Hmono q). lia.
Qed.

Lemma phase_step s e :
  phase t0 j0 s -> calm j0 e ->
  phase t0 j0 (system_step s e) /\
  forall k q, workers s !! k = Some q ->
    exists q', workers (system_step s e) !! k = Some q' /\
      (left_to_run j0 (jobs (system_step s e)) q'
       <= left_to_run j0 (jobs s) q
          - (if decide (who e = k) then 1 else 0))%nat.
Proof.
  intros Hph [Hfault Hclock].
  destruct (workers s !! who e) as [p|] eqn:Hp.
  2:{ rewrite system_step_idle by done. split; [done|].
      intros k q Hq. exists q. split; [done|].
      rewrite decide_False; [lia|]. intros <-. by rewrite Hp in Hq. }
  rewrite (system_step_at s e p Hp), Hfault. cbn [jobs workers].
  pose proof (lookup_lt_Some _ _ _ Hp) as Hlt.
  destruct Hph as [Ht Hall|now a Ht Ha Hothers]; rewrite Ht.
  - destruct (Hall _ _ Hp) as [->|[n ->]]; cbn [Preempt_step fst snd].
    + rewrite select_unclaimed by done. split.
      * apply Unclaimed; [done|]. cbn [workers]. intros k p Hk.
        apply list_lookup_insert_Some in Hk as [(_ & <- & _)|[_ Hk]]; eauto.
      * apply (move_measure _ (who e) AtSelect); [done..|].
        rewrite left_to_run_unclaimed. simpl. lia.
    + rewrite update_unclaimed. cbn [fst snd]. split.
      * apply (Claimed _ _ _ n (who e)); cbn [jobs workers]; [done|..].
        -- by rewrite list_lookup_insert_eq.
        -- intros k p Hne Hk. rewrite list_lookup_insert_ne in Hk by done.
           destruct (Hall _ _ Hk) as [->|[m ->]]; eauto.
      * apply (move_measure _ (who e) (AtUpdate j0 n)); [done| |simpl; lia].
        intros q. destruct q; [|done..].
        rewrite left_to_run_unclaimed, left_to_run_claimed. lia.
  - assert (Hkeep : forall p', p' <> Returned j0 None ->
      (p' = AtSelect \/ (exists n, p' = AtUpdate j0 n) \/
       p' = Returned zeroJob (Some ErrRecordNotFound)) ->
      who e <> a ->
      phase t0 j0 (mkSystem (after_claim j0 now t0)
                            (<[who e := p']> (workers s)))).
    { intros p' Hnot Hshape Hne.
      apply (Claimed _ _ _ now a); cbn [jobs workers]; [done|..].
      - by rewrite list_lookup_insert_ne.
      - intros k q Hka Hk.
        apply list_lookup_insert_Some in Hk as [(_ & <- & _)|[_ Hk]]; eauto. }
    destruct (decide (who e = a)) as [Heq|Hne].
    { rewrite Heq in Hp. assert (p = Returned j0 None) as -> by congruence.
      cbn [Preempt_step fst snd]. rewrite Heq, list_insert_id by done. split.
      - by apply (Claimed _ _ _ now a).
      - intros k q Hq. exists q. split; [done|].
        destruct (decide (a = k)) as [<-|]; [|lia].
        assert (q = Returned j0 None) as -> by congruence. simpl. lia. }
    destruct (Hothers _ _ Hne Hp) as [->|[[n ->]| ->]]; cbn [Preempt_step fst snd].
    + rewrite select_claimed. split; [apply Hkeep; auto|].
      apply (move_measure _ (who e) AtSelect); [done..|]. simpl. lia.
    + rewrite update_claimed. cbn [fst snd]. split; [apply Hkeep; auto|].
      apply (move_measure _ (who e) (AtUpdate j0 n)); [done..|].
      rewrite left_to_run_claimed. simpl. lia.
    + rewrite list_insert_id by done. split.
      * by apply (Claimed _ _ _ now a).
      * intros k q Hq. exists q. split; [done|].
        destruct (decide (who e = k)) as [<-|]; [|lia].
        assert (q = Returned zeroJob (Some ErrRecordNotFound)) as ->
          by congruence.
        simpl. lia.
Qed.

(** Along a run in which every statement is calm, each statement of a
    worker brings it closer to its return. *)
Lemma phase_run es s :
  phase t0 j0 s -> Forall (calm j0) es ->
  phase t0 j0 (run_system es s) /\
  forall k q, workers s !! k = Some q ->
    exists q', workers (run_system es s) !! k = Some q' /\
      (left_to_run j0 (jobs (run_system es s)) q'
       <= left_to_run j0 (jobs s) q - turns_of k es)%nat.
Proof.
  revert s. induction es as [|e es IH]; intros s Hph Hcalm.
  - split; [done|]. intros k q Hq. exists q. split; [done|].
    change (turns_of k []) with 0%nat. change (run_system [] s) with s. lia.
  - apply Forall_cons in Hcalm as [He Hcalm].
    destruct (phase_step s e Hph He) as [Hph1 Hstep].
    destruct (IH (system_step s e) Hph1 Hcalm) as [Hph2 Hrun].
    split; [done|]. intros k q Hq.
    destruct (Hstep k q Hq) as (q1 & Hq1 & Hle1).
    destruct (Hrun k q1 Hq1) as (q2 & Hq2 & Hle2).
    exists q2. split; [done|]. rewrite turns_of_cons.
    change (run_system (e :: es) s) with (run_system es (system_step s e)).
    lia.
Qed.

(** Every worker got three statements: all have returned, one of them
    with [j0] and the others with [ErrRecordNotFound]. *)
Lemma one_winner n es :
  (1 <= n)%nat -> Forall (calm j0) es ->
  (forall k, (k < n)%nat -> (3 <= turns_of k es)%nat) ->
  let s := run_system es (start t0 n) in
  exists a now,
    (a < n)%nat /\ owner s a j0 /\
    jobs s = after_claim j0 now t0 /\
    claimed now j0 ∈ jobs s /\
    forall k, (k < n)%nat -> k <> a ->
      workers s !! k = Some (Returned zeroJob (Some ErrRecordNotFound)).
Proof.
  intros Hn Hcalm Hturns s.
  assert (Hstart : phase t0 j0 (start t0 n)).
  { apply Unclaimed; [done|]. simpl. intros k p Hk.
    apply lookup_replicate in Hk as [-> _]. by left. }
  destruct (phase_run es (start t0 n) Hstart Hcalm) as [Hph Hleft].
  fold s in Hph, Hleft.
  assert (Hdone : forall k, (k < n)%nat ->
            exists q, workers s !! k = Some q /\ returned q).
  { intros k Hk.
    destruct (Hleft k AtSelect) as (q & Hq & Hle).
    { simpl. by apply lookup_replicate. }
    exists q. split; [done|].
    change (jobs (start t0 n)) with t0 in Hle.
    rewrite left_to_run_unclaimed in Hle.
    specialize (Hturns k Hk).
    destruct q as [| |j e]; simpl in Hle; [destruct (decide _)|..];
      first [lia|done]. }
  destruct Hph as [_ Hall|now a Ht Ha Hothers].
  - destruct (Hdone 0%nat ltac:(lia)) as (q & Hq & Hret).
    by destruct (Hall _ _ Hq) as [->|[m ->]].
  - exists a, now. split_and!; [|done|done| |].
    + apply lookup_lt_Some in Ha. unfold s in Ha.
      rewrite run_system_length in Ha. simpl in Ha.
      by rewrite length_replicate in Ha.
    + rewrite Ht. apply after_claim_claimed.
    + intros k Hk Hne. destruct (Hdone k Hk) as (q & Hq & Hret).
      rewrite Hq. f_equal.
      by destruct (Hothers _ _ Hne Hq) as [->|[[m ->]| ->]].
Qed.

End one_due_job.

(** Both workers read version 5; the first write wins, the second
    affects no row, and its worker, selecting again, finds nothing. *)
Example race_for_job1 :
  run_system both_read_then_write (start [job1] 2)
  = mkSystem [job1_running]
      [Returned job1 None; Returned zeroJob (Some ErrRecordNotFound)] /\
  run_system (take 4 both_read_then_write) (start [job1] 2)
  = mkSystem [job1_running] [Returned job1 None; AtSelect].
Proof. by vm_compute. Qed.

(** C1: [n] workers call [Preempt] on one table and the database runs
    their statements in any order [es], failures included.  In every state
    so reached no two workers have come back with the same job: of the
    compare-and-swaps keyed on the [(id, version)] of a job at most one
    matches, and the table then shows that job with status Running and the
    version its owner read, incremented (by exactly one unless Go's [int]
    overflows).  When the table holds a single waiting job [j0], due at
    every clock reading of the run, no statement fails and each of the
    [n >= 2] workers gets to run three statements, then every call has
    returned: exactly one worker has [j0], stored with status Running and
    the incremented version, and every other worker has
    [ErrRecordNotFound]. *)
Theorem C1_one_owner_per_job (t : table) (n : nat) (es : list event) :
  primary_key t ->
  let s := run_system es (start t n) in
  (forall a b ja jb,
     owner s a ja -> owner s b jb -> Id ja = Id jb -> a = b) /\
  (forall a ja,
     owner s a ja ->
     exists r, r ∈ jobs s /\ Id r = Id ja /\
               Status r = jobStatusRunning /\
               Version r = GoInt.add (Version ja) 1 /\
               (GoInt.in_range (Version ja) -> Version ja < GoInt.max_int ->
                Version r = Version ja + 1)) /\
  (forall j0,
     j0 ∈ t -> Status j0 = jobStatusWaiting ->
     (forall r, r ∈ t -> Status r = jobStatusWaiting -> r = j0) ->
     (2 <= n)%nat ->
     Forall (calm j0) es ->
     (forall k, (k < n)%nat -> (3 <= turns_of k es)%nat) ->
     exists a now,
       (a < n)%nat /\ owner s a j0 /\
       jobs s = after_claim j0 now t /\
       claimed now j0 ∈ jobs s /\
       Status (claimed now j0) = jobStatusRunning /\
       Version (claimed now j0) = GoInt.add (Version j0) 1 /\
       forall k, (k < n)%nat -> k <> a ->
         workers s !! k = Some (Returned zeroJob (Some ErrRecordNotFound))).
Proof.
  intros Hpk s.
  pose proof (consistent_run es (start t n) (consistent_start t n Hpk))
    as [_ _ Hown Hexcl].
  fold s in Hown, Hexcl. split_and!.
  - exact Hexcl.
  - intros a ja Ha.
    destruct (Hown a ja Ha) as (_ & r & Hr & Hid & Hs & Hv).
    exists r. split_and!; [done..|].
    intros Hrange Hmax. by rewrite Hv, add_no_overflow.
  - intros j0 Hj0 Hwait Honly Hn Hcalm Hturns.
    destruct (one_winner t j0 Hj0 Hwait Honly n es ltac:(lia) Hcalm Hturns)
      as (a & now & Ha & Hown0 & Ht & Hin & Hrest).
    exists a, now. by split_and!.
Qed.

Lemma C1_one_owner_per_job_witness :
  let s := run_system two_workers_in_turn (start [job1] 2) in
  (forall a b ja jb,
     owner s a ja -> owner s b jb -> Id ja = Id jb -> a = b) /\
  (forall a ja,
     owner s a ja ->
     exists r, r ∈ jobs s /\ Id r = Id ja /\
               Status r = jobStatusRunning /\
               Version r = GoInt.add (Version ja) 1 /\
               (GoInt.in_range (Version ja) -> Version ja < GoInt.max_int ->
                Version r = Version ja + 1)) /\
  exists a now,
    (a < 2)%nat /\ owner s a job1 /\
    jobs s = after_claim job1 now [job1] /\
    claimed now job1 ∈ jobs s /\
    Status (claimed now job1) = jobStatusRunning /\
    Version (claimed now job1) = GoInt.add (Version job1) 1 /\
    forall k, (k < 2)%nat -> k <> a ->
      workers s !! k = Some (Returned zeroJob (Some ErrRecordNotFound)).
Proof.
  destruct (C1_one_owner_per_job [job1] 2 two_workers_in_turn
              (NoDup_singleton _)) as (Hexcl & Hstored & Hone).
  split_and!; [exact Hexcl|exact Hstored|].
  apply (Hone job1).
  - left.
  - reflexivity.
  - intros r Hr _. by apply list_elem_of_singleton in Hr.
  - lia.
  - repeat constructor.
  - intros [|[|k]] Hk; [vm_compute; lia..|lia].
Defined.

(** * Further properties of the DAO *)

(** ** What no call touches *)

Lemma fmap_if_immutable (f : Job -> Job) (P : Job -> Prop)
    `{!forall r, Decision (P r)} (t : table) :
  (forall r, immutable (f r) = immutable r) ->
  immutable <$> ((fun x => if decide (P x) then f x else x) <$> t)
    = immutable <$> t.
Proof.
  intros Hf. rewrite <- list_fmap_compose. apply list_fmap_ext.
  intros _ r _. simpl. by destruct (decide (P r)).
Qed.

Lemma run_call_immutable c now t :
  immutable <$> run_call c now t = immutable <$> t.
Proof.
  destruct c as [|jobId|id|id tm]; unfold run_call.
  - destruct (Preempt_alone_cases now t) as [(j & _ & ->)|[_ ->]]; [|done].
    by apply fmap_if_immutable.
  - rewrite Release_table. by apply fmap_if_immutable.
  - rewrite UpdateTime_table. by apply fmap_if_immutable.
  - rewrite UpdateNextTime_table. by apply fmap_if_immutable.
Qed.

Lemma immutable_ids (t t' : table) :
  immutable <$> t' = immutable <$> t -> Id <$> t' = Id <$> t.
Proof.
  intros Heq.
  assert (Hid : forall l : table,
            Id <$> l = (fun x => x.1.1.1.1.1) <$> (immutable <$> l)).
  { intros l. rewrite <- list_fmap_compose. by apply list_fmap_ext. }
  by rewrite (Hid t'), (Hid t), Heq.
Qed.

(** X1: every call of the DAO leaves the rows where they are and their id,
    name, executor, expression, configuration and creation time as they
    were: no call inserts or deletes a job, and the primary key
    survives. *)
Theorem calls_keep_rows_and_immutable_columns
    (cs : list (call * Z)) (t : table) :
  immutable <$> run_calls cs t = immutable <$> t /\
  length (run_calls cs t) = length t /\
  (primary_key t -> primary_key (run_calls cs t)).
Proof.
  assert (Him : immutable <$> run_calls cs t = immutable <$> t).
  { revert t. induction cs as [|[c now] cs IH]; intros t; [done|].
    change (run_calls ((c, now) :: cs) t)
      with (run_calls cs (run_call c now t)).
    by rewrite IH, run_call_immutable. }
  split_and!; [done| |].
  - by rewrite <- (length_fmap immutable), Him, length_fmap.
  - unfold primary_key. by rewrite (immutable_ids _ _ Him).
Qed.

(** ** A job that is not there *)

(** X2: [Release], [UpdateTime] and [UpdateNextTime] on an id that no row
    carries change nothing and return nil: the caller cannot tell a job
    that is missing from one that was written. *)
Theorem writes_to_a_missing_job_return_nil (now id tm : Z) (t : table) :
  (forall r, r ∈ t -> Id r <> id) ->
  Release None now id t = (None, t) /\
  UpdateTime None now id t = (None, t) /\
  UpdateNextTime None now id tm t = (None, t).
Proof.
  intros Hmiss. unfold Release, UpdateTime, UpdateNextTime.
  by rewrite !Updates_no_match by (intros r Hr; by apply Hmiss).
Qed.

Lemma writes_to_a_missing_job_return_nil_witness :
  Release None 2000 7 [job1; job2] = (None, [job1; job2]) /\
  UpdateTime None 2000 7 [job1; job2] = (None, [job1; job2]) /\
  UpdateNextTime None 2000 7 9000 [job1; job2] = (None, [job1; job2]).
Proof.
  apply (writes_to_a_missing_job_return_nil 2000 7 9000 [job1; job2]).
  intros r Hr. apply elem_of_cons in Hr as [->|Hr]; [done|].
  apply list_elem_of_singleton in Hr as ->. done.
Defined.

(** ** One call of [Preempt] *)

Lemma claim_map_pk (j : Job) (now : Z) (t : table) :
  primary_key t -> j ∈ t ->
  (fun x => if decide (id_version (Id j) (Version j) x)
            then claimed now x else x) <$> t
  = (fun x => if decide (x = j) then claimed now j else x) <$> t.
Proof.
  intros Hpk Hj. apply list_fmap_ext. intros i x Hx.
  apply list_elem_of_lookup_2 in Hx.
  destruct (decide (id_version _ _ x)) as [[Hid _]|Hno].
  - rewrite (primary_key_inj t x j Hpk Hx Hj Hid). by rewrite decide_True.
  - rewrite decide_False; [done|]. intros ->. by apply Hno.
Qed.

(** X3: run alone on a table with its primary key, [Preempt] writes one row
    or none: it returns the lowest due job and the table differs in that
    row only, which is now [claimed]; or it returns [ErrRecordNotFound]
    with the zero [Job] and the table as it was.  A row that is not
    waiting, or not due yet, is never written. *)
Theorem Preempt_alone_writes_one_row (now : Z) (t : table) :
  primary_key t ->
  match Preempt_alone now t with
  | (Returned j None, t') =>
      j ∈ t /\ due now j /\
      (forall r, r ∈ t -> due now r -> r <> j -> Id j < Id r) /\
      t' = (fun x => if decide (x = j) then claimed now j else x) <$> t /\
      (forall r, r ∈ t -> ~ due now r -> r ∈ t')
  | (Returned j (Some e), t') =>
      j = zeroJob /\ e = ErrRecordNotFound /\ t' = t /\
      forall r, r ∈ t -> ~ due now r
  | _ => False
  end.
Proof.
  intros Hpk.
  destruct (Preempt_alone_cases now t) as [(j & HF & ->)|[HF ->]].
  - apply First_found in HF as (Hj & Hdue & Hleast).
    rewrite (claim_map_pk j now t Hpk Hj). split_and!; [done..| |done|].
    { intros r Hr Hrdue Hne. specialize (Hleast r Hr Hrdue).
      destruct (decide (Id j = Id r)) as [Heq|]; [|lia].
      destruct Hne. by eapply primary_key_inj. }
    intros r Hr Hnd.
    pose proof (fmap_if_elem (fun _ => claimed now j) (fun x => x = j) t r Hr)
      as Hin.
    rewrite decide_False in Hin; [done|]. by intros ->.
  - apply First_not_found in HF as (_ & _ & Hno). by split_and!.
Qed.

Lemma Preempt_alone_writes_one_row_witness :
  match Preempt_alone 2000 [job1; job2] with
  | (Returned j None, t') =>
      j ∈ [job1; job2] /\ due 2000 j /\
      (forall r, r ∈ [job1; job2] -> due 2000 r -> r <> j -> Id j < Id r) /\
      t' = (fun x => if decide (x = j) then claimed 2000 j else x)
             <$> [job1; job2] /\
      (forall r, r ∈ [job1; job2] -> ~ due 2000 r -> r ∈ t')
  | (Returned j (Some e), t') =>
      j = zeroJob /\ e = ErrRecordNotFound /\ t' = [job1; job2] /\
      forall r, r ∈ [job1; job2] -> ~ due 2000 r
  | _ => False
  end.
Proof.
  apply (Preempt_alone_writes_one_row 2000 [job1; job2]).
  unfold primary_key. simpl. apply NoDup_cons. split.
  - intros Hin. by apply list_elem_of_singleton in Hin.
  - apply NoDup_singleton.
Defined.

(** ** Calls of [Preempt] one after the other *)

(** X4: two calls of [Preempt] in a row, each running alone, that both come
    back with a job come back with two different jobs of the table; when
    the clock has not moved in between, the second has the higher id. *)
Theorem Preempt_twice_takes_two_jobs
    (now1 now2 : Z) (t t1 t2 : table) (j1 j2 : Job) :
  primary_key t ->
  Preempt_alone now1 t = (Returned j1 None, t1) ->
  Preempt_alone now2 t1 = (Returned j2 None, t2) ->
  j1 ∈ t /\ j2 ∈ t /\ Id j1 <> Id j2 /\ (now2 <= now1 -> Id j1 < Id j2).
Proof.
  intros Hpk H1 H2.
  destruct (Preempt_alone_cases now1 t) as [(j & HF1 & Hrun1)|[_ Hrun1]];
    rewrite Hrun1 in H1; [|done].
  injection H1 as -> <-.
  apply First_found in HF1 as (Hj1 & Hdue1 & Hleast1).
  destruct (Preempt_alone_cases now2
              ((fun x => if decide (id_version (Id j1) (Version j1) x)
                         then claimed now1 x else x) <$> t))
    as [(j & HF2 & Hrun2)|[_ Hrun2]]; rewrite Hrun2 in H2; [|done].
  injection H2 as -> _.
  apply First_found in HF2 as (Hj2 & [Hw2 Hn2] & _).
  apply list_elem_of_fmap in Hj2 as (r & Hr & Hrt).
  destruct (decide (id_version _ _ r)) as [Hm|Hno].
  { rewrite Hr in Hw2. done. }
  subst r.
  assert (Hne : Id j1 <> Id j2).
  { intros Heq. apply Hno.
    by rewrite (primary_key_inj t j2 j1 Hpk Hrt Hj1 (eq_sym Heq)). }
  split_and!; [done..|].
  intros Hclock.
  assert (Id j1 <= Id j2); [|lia].
  apply Hleast1; [done|]. split; [done|lia].
Qed.

Lemma Preempt_twice_takes_two_jobs_witness :
  job1 ∈ [job1; job2] /\ job2 ∈ [job1; job2] /\ Id job1 <> Id job2 /\
  (2000 <= 2000 -> Id job1 < Id job2).
Proof.
  apply (Preempt_twice_takes_two_jobs 2000 2000 [job1; job2]
           [claimed 2000 job1; job2] [claimed 2000 job1; claimed 2000 job2]).
  - unfold primary_key. simpl. apply NoDup_cons. split.
    + intros Hin. by apply list_elem_of_singleton in Hin.
    + apply NoDup_singleton.
  - vm_compute. reflexivity.
  - vm_compute. reflexivity.
Defined.

(** X5: a job that was claimed and then released, with no [UpdateNextTime]
    in between, is back in the table with status Waiting, its version
    incremented and its [next_time] as before: it is due again at the very
    clock reading at which it was claimed. *)
Theorem claim_then_release_is_due_at_once
    (now1 now2 : Z) (t t1 : table) (j : Job) :
  primary_key t ->
  Preempt_alone now1 t = (Returned j None, t1) ->
  let back :=
    mkJob (Id j) (Name j) (Executor j) (Expression j) (Cfg j)
          jobStatusWaiting (GoInt.add (Version j) 1) (NextTime j)
          (CreateTime j) now2 in
  back ∈ run_call (CallRelease (Id j)) now2 t1 /\
  (forall x, x ∈ run_call (CallRelease (Id j)) now2 t1 ->
             Id x = Id j -> x = back) /\
  due now1 back.
Proof.
  intros Hpk Hrun back.
  destruct (Preempt_alone_cases now1 t) as [(j' & HF & Hrun')|[_ Hrun']];
    rewrite Hrun' in Hrun; [|done].
  injection Hrun as -> <-.
  apply First_found in HF as (Hj & [Hw Hn] & _).
  rewrite (claim_map_pk j now1 t Hpk Hj).
  assert (Hpk1 : primary_key
            ((fun x => if decide (x = j) then claimed now1 j else x) <$> t)).
  { unfold primary_key. rewrite <- list_fmap_compose.
    erewrite list_fmap_ext; [exact Hpk|].
    intros _ x _. simpl. by destruct (decide _) as [->|]. }
  assert (Hin : claimed now1 j
            ∈ (fun x => if decide (x = j) then claimed now1 j else x) <$> t).
  { pose proof (fmap_if_elem (fun _ => claimed now1 j) (fun x => x = j) t j Hj)
      as Hin.
    by rewrite decide_True in Hin by done. }
  unfold run_call. rewrite Release_table. cbn [snd].
  destruct (fmap_if_row (released now2) _ (claimed now1 j) Hpk1 Hin
              ltac:(done)) as (Hback & Honly & _).
  split_and!; done.
Qed.

Lemma claim_then_release_is_due_at_once_witness :
  let back :=
    mkJob (Id job1) (Name job1) (Executor job1) (Expression job1) (Cfg job1)
          jobStatusWaiting (GoInt.add (Version job1) 1) (NextTime job1)
          (CreateTime job1) 5000 in
  back ∈ run_call (CallRelease (Id job1)) 5000 [job1_running] /\
  (forall x, x ∈ run_call (CallRelease (Id job1)) 5000 [job1_running] ->
             Id x = Id job1 -> x = back) /\
  due 1001 back.
Proof.
  apply (claim_then_release_is_due_at_once 1001 5000 [job1] [job1_running]).
  - apply NoDup_singleton.
  - vm_compute. reflexivity.
Defined.

(** ** What [Preempt] returns with an error *)




(** ** Writes keyed on the id, composed *)

Lemma run_call_write c id now t :
  call_id c = Some id ->
  run_call c now t
  = (fun x => if decide (Id x = id) then write_of c now x else x) <$> t.
Proof.
  destruct c as [|jobId|id'|id' tm]; intros [= <-]; unfold run_call.
  - by rewrite Release_table.
  - by rewrite UpdateTime_table.
  - by rewrite UpdateNextTime_table.
Qed.

Lemma write_of_Id c now r : Id (write_of c now r) = Id r.
Proof. by destruct c. Qed.

Lemma write_of_key c now r : key (write_of c now r) = key r.
Proof. by destruct c. Qed.

(** X7: two calls among [Release], [UpdateTime] and [UpdateNextTime] that
    name different jobs give the same table in either order. *)
Theorem writes_to_different_jobs_commute
    (c1 c2 : call) (id1 id2 now1 now2 : Z) (t : table) :
  call_id c1 = Some id1 -> call_id c2 = Some id2 -> id1 <> id2 ->
  run_calls [(c1, now1); (c2, now2)] t = run_calls [(c2, now2); (c1, now1)] t.
Proof.
  intros H1 H2 Hne. unfold run_calls. cbn [foldl fst snd].
  rewrite !(run_call_write c1 id1) by done.
  rewrite !(run_call_write c2 id2) by done.
  rewrite <- !list_fmap_compose. apply list_fmap_ext. intros _ x _. simpl.
  destruct (decide (Id x = id1)) as [He1|Hn1];
    destruct (decide (Id x = id2)) as [He2|Hn2]; try congruence;
    repeat first
      [ rewrite decide_True by (rewrite ?write_of_Id; congruence)
      | rewrite decide_False by (rewrite ?write_of_Id; congruence) ];
    done.
Qed.

Lemma writes_to_different_jobs_commute_witness :
  run_calls [(CallRelease 1, 3000); (CallUpdateNextTime 2 9000, 3001)]
            [job1_running; job2]
  = run_calls [(CallUpdateNextTime 2 9000, 3001); (CallRelease 1, 3000)]
              [job1_running; job2].
Proof.
  apply (writes_to_different_jobs_commute
           (CallRelease 1) (CallUpdateNextTime 2 9000) 1 2); [done..|lia].
Defined.

(** X8: a call of [Release], [UpdateTime] or [UpdateNextTime] made twice
    leaves what the second call alone leaves: repeating one of them only
    moves [updated_at]. *)
Theorem repeated_write_is_the_last_one
    (c : call) (now1 now2 : Z) (t : table) :
  c <> CallPreempt ->
  run_calls [(c, now1); (c, now2)] t = run_call c now2 t.
Proof.
  intros Hc. unfold run_calls. cbn [foldl fst snd].
  destruct (call_id c) as [id|] eqn:Hid; [|by destruct c].
  rewrite !(run_call_write c id) by done.
  rewrite <- list_fmap_compose. apply list_fmap_ext. intros _ x _. simpl.
  destruct (decide (Id x = id)) as [He|Hn].
  - rewrite decide_True by (by rewrite write_of_Id). by destruct c.
  - by rewrite decide_False by done.
Qed.

Lemma repeated_write_is_the_last_one_witness :
  run_calls [(CallRelease 1, 3000); (CallRelease 1, 3005)] [job1_running; job2]
  = run_call (CallRelease 1) 3005 [job1_running; job2].
Proof. by apply (repeated_write_is_the_last_one (CallRelease 1)). Defined.

(** ** The compare-and-swap and the writes without a version *)

Lemma run_call_keys c now t :
  c <> CallPreempt -> key <$> run_call c now t = key <$> t.
Proof.
  intros Hc. destruct (call_id c) as [id|] eqn:Hid; [|by destruct c].
  rewrite (run_call_write c id) by done.
  rewrite <- list_fmap_compose. apply list_fmap_ext. intros _ x _. simpl.
  destruct (decide _); [apply write_of_key|done].
Qed.

Lemma run_calls_keys cs t :
  Forall (fun c => c.1 <> CallPreempt) cs ->
  key <$> run_calls cs t = key <$> t.
Proof.
  revert t. induction cs as [|[c now] cs IH]; intros t Hcs; [done|].
  apply Forall_cons in Hcs as [Hc Hcs].
  change (run_calls ((c, now) :: cs) t) with (run_calls cs (run_call c now t)).
  by rewrite IH, run_call_keys.
Qed.

(** X9: whatever calls of [Release], [UpdateTime] and [UpdateNextTime] other
    processes complete between the SELECT and the UPDATE of an iteration
    of [Preempt], the UPDATE matches and [Preempt] returns the candidate:
    the compare-and-swap sees the id and the version only, and those
    calls change neither, whatever they do to [status], [next_time] and
    [updated_at] meanwhile. *)
Theorem claim_succeeds_across_unversioned_writes
    (cs : list (call * Z)) (now now' : Z) (t : table) (j : Job) :
  Forall (fun c => c.1 <> CallPreempt) cs ->
  Preempt_select None now t = AtUpdate j now ->
  (Preempt [mkTurn [] None now; mkTurn cs None now'] t).1 = Returned j None /\
  exists r, r ∈ run_calls cs t /\ key r = key j /\
            claimed now r
              ∈ (Preempt [mkTurn [] None now; mkTurn cs None now'] t).2.
Proof.
  intros Hcs Hsel. unfold Preempt. cbn [Preempt_run fault clock before].
  change (run_calls [] t) with t. cbn [Preempt_step]. rewrite Hsel.
  pose proof (Preempt_select_cases None now t) as H. rewrite Hsel in H.
  destruct H as (_ & _ & HF). apply First_found in HF as (Hj & _ & _).
  assert (Hkey : key j ∈ key <$> run_calls cs t).
  { rewrite run_calls_keys by done. by apply list_elem_of_fmap_2. }
  apply list_elem_of_fmap in Hkey as (r & Hk & Hr).
  assert (Hm : id_version (Id j) (Version j) r).
  { unfold key in Hk. injection Hk as Hid Hv. by split. }
  cbn [Preempt_step error_of].
  rewrite (Preempt_update_hit j now (run_calls cs t) r Hr Hm).
  split; [done|]. exists r. split_and!; [done..|]. cbn [snd].
  pose proof (fmap_if_elem (claimed now) (id_version (Id j) (Version j))
                _ r Hr) as Hin.
  by rewrite decide_True in Hin by done.
Qed.

Lemma claim_succeeds_across_unversioned_writes_witness :
  (Preempt [mkTurn [] None 1001;
            mkTurn [(CallUpdateNextTime 1 900000, 1002)] None 1003]
           [job1]).1 = Returned job1 None /\
  exists r, r ∈ run_calls [(CallUpdateNextTime 1 900000, 1002)] [job1] /\
            key r = key job1 /\
            claimed 1001 r
              ∈ (Preempt [mkTurn [] None 1001;
                          mkTurn [(CallUpdateNextTime 1 900000, 1002)] None 1003]
                         [job1]).2.
Proof.
  apply (claim_succeeds_across_unversioned_writes
           [(CallUpdateNextTime 1 900000, 1002)] 1001 1003 [job1] job1).
  - repeat constructor. done.
  - vm_compute. reflexivity.
Defined.

(** ** Contention among calls of [Preempt] on any table *)

(** A statement of a worker leaves the table as it is, or is the
    compare-and-swap that matched. *)
Lemma system_step_jobs s e :
  system_step s e = mkSystem (jobs s) (workers (system_step s e)) \/
  exists j now r,
    workers s !! who e = Some (AtUpdate j now) /\
    r ∈ jobs s /\ id_version (Id j) (Version j) r /\
    system_step s e
    = mkSystem ((fun x => if decide (id_version (Id j) (Version j) x)
                          then claimed now x else x) <$> jobs s)
               (<[who e := Returned j None]> (workers s)).
Proof.
  destruct (workers s !! who e) as [p|] eqn:Hp.
  2:{ left. rewrite system_step_idle by done. by destruct s. }
  rewrite (system_step_at s e p Hp).
  destruct p as [|j now|j err]; cbn [Preempt_step fst snd workers]; [by left| |by left].
  destruct (ev_fault e) as [err|]; cbn [error_of]; [by left|].
  destruct (Preempt_update_cases j now (jobs s))
    as [[-> _]|[-> (r & Hr & Hm)]]; cbn [fst snd]; [by left|].
  right. by exists j, now, r.
Qed.

(** A call that has returned stays where it is. *)
Lemma system_step_returned s e k j err :
  workers s !! k = Some (Returned j err) ->
  workers (system_step s e) !! k = Some (Returned j err).
Proof.
  intros Hk. destruct (workers s !! who e) as [p|] eqn:Hp;
    [|by rewrite system_step_idle].
  rewrite (system_step_at s e p Hp). cbn [workers].
  destruct (decide (who e = k)) as [Heq|Hne].
  - rewrite Heq in Hp. assert (p = Returned j err) as -> by congruence.
    cbn [Preempt_step fst]. rewrite Heq.
    rewrite list_lookup_insert_eq; [done|by eapply lookup_lt_Some].
  - by rewrite list_lookup_insert_ne.
Qed.

Lemma accounted_step t0 s e :
  consistent s -> accounted t0 s -> accounted t0 (system_step s e).
Proof.
  intros Hcons Hacc.
  assert (Hold : forall r', r' ∈ jobs s ->
            r' ∈ t0 \/
            exists r0 now k, r0 ∈ t0 /\ waiting r0 /\ r' = claimed now r0 /\
                             owner (system_step s e) k r0).
  { intros r' Hr'. destruct (Hacc r' Hr') as [|(r0 & now & k & ? & ? & ? & Hk)];
      [by left|right].
    exists r0, now, k. split_and!; [done..|]. by apply system_step_returned. }
  destruct (system_step_jobs s e)
    as [Heq|(j & now & r & Hp & Hr & Hm & Heq)].
  - intros r' Hr'. rewrite Heq in Hr'. by apply Hold.
  - intros r' Hr'. rewrite Heq in Hr' at 1. cbn [jobs] in Hr'.
    apply list_elem_of_fmap in Hr' as (x & -> & Hx).
    destruct (decide (id_version _ _ x)) as [[Hid Hv]|]; [|by apply Hold].
    destruct Hcons as [Hpk Hcand _ _].
    assert (Hfresh : fresh j (jobs s)).
    { destruct (Hcand _ _ _ Hp) as [|(r2 & Hr2 & Hid2 & _ & Hv2)]; [done|].
      destruct Hv2. rewrite <- Hv. f_equal.
      eapply primary_key_inj; [done..|congruence]. }
    destruct Hfresh as [Hj Hw].
    assert (x = j) as -> by by eapply primary_key_inj.
    destruct (Hacc j Hj) as [Hj0|(r0 & n0 & _ & _ & _ & -> & _)]; [|done].
    right. exists j, now, (who e). split_and!; [done..|].
    rewrite Heq. unfold owner. cbn [workers].
    rewrite list_lookup_insert_eq; [done|by eapply lookup_lt_Some].
Qed.

Lemma accounted_run t0 es s :
  consistent s -> accounted t0 s -> accounted t0 (run_system es s).
Proof.
  revert s. induction es as [|e es IH]; intros s Hc Ha; [done|].
  apply IH; [by apply consistent_step|by apply accounted_step].
Qed.

(** X10: however the statements of [n] concurrent calls of [Preempt] are
    ordered, and whichever of them fail, every row of the table is as it
    was at the start or is the claim of a row that was waiting then, and
    in that case a worker has come back with that job: the calls leave no
    job running that nobody got. *)
Theorem every_claim_has_its_owner
    (t : table) (n : nat) (es : list event) (r' : Job) :
  primary_key t ->
  r' ∈ jobs (run_system es (start t n)) ->
  r' ∈ t \/
  exists r0 now k,
    r0 ∈ t /\ Status r0 = jobStatusWaiting /\ r' = claimed now r0 /\
    owner (run_system es (start t n)) k r0.
Proof.
  intros Hpk Hr'.
  apply (accounted_run t es (start t n)); [by apply consistent_start| |done].
  intros x Hx. by left.
Qed.

Lemma every_claim_has_its_owner_witness :
  job1_running ∈ [job1] \/
  exists r0 now k,
    r0 ∈ [job1] /\ Status r0 = jobStatusWaiting /\
    job1_running = claimed now r0 /\
    owner (run_system both_read_then_write (start [job1] 2)) k r0.
Proof.
  apply (every_claim_has_its_owner [job1] 2 both_read_then_write job1_running).
  - apply NoDup_singleton.
  - vm_compute. left.
Defined.

(** ** Every contending call returns *)

Lemma waiting_rows_claim_le j now t :
  (waiting_rows ((fun x => if decide (id_version (Id j) (Version j) x)
                           then claimed now x else x) <$> t)
   <= waiting_rows t)%nat.
Proof.
  unfold waiting_rows. induction t as [|x t IH]; [done|].
  rewrite fmap_cons. destruct (decide (id_version _ _ x)).
  - rewrite filter_cons_False by done.
    rewrite (filter_cons waiting x t). destruct (decide (waiting x)); simpl; lia.
  - rewrite !(filter_cons waiting x). destruct (decide (waiting x)); simpl; lia.
Qed.

Lemma waiting_rows_claim_lt j now t :
  j ∈ t -> waiting j ->
  (waiting_rows ((fun x => if decide (id_version (Id j) (Version j) x)
                           then claimed now x else x) <$> t)
   < waiting_rows t)%nat.
Proof.
  intros Hj Hw. induction t as [|x t IH]; [by apply elem_of_nil in Hj|].
  pose proof (waiting_rows_claim_le j now t) as Hle.
  unfold waiting_rows in *. rewrite fmap_cons.
  apply elem_of_cons in Hj as [<-|Hj].
  - rewrite decide_True by done. rewrite filter_cons_False by done.
    rewrite filter_cons_True by done. simpl. lia.
  - specialize (IH Hj). destruct (decide (id_version _ _ x)).
    + rewrite filter_cons_False by done.
      rewrite (filter_cons waiting x t).
      destruct (decide (waiting x)); simpl; lia.
    + rewrite !(filter_cons waiting x).
      destruct (decide (waiting x)); simpl; lia.
Qed.

Lemma fresh_waiting_rows j t : fresh j t -> (1 <= waiting_rows t)%nat.
Proof.
  intros [Hj Hw]. unfold waiting_rows.
  assert (Hin : j ∈ filter waiting t) by by apply list_elem_of_filter.
  destruct (filter waiting t); [by apply elem_of_nil in Hin|simpl; lia].
Qed.

Lemma move_bound (mu : list Job -> pc -> nat) (ws : list pc) k p p' t t' :
  ws !! k = Some p ->
  (forall q, mu t' q <= mu t q)%nat ->
  (mu t' p' <= mu t p - 1)%nat ->
  forall k2 q, ws !! k2 = Some q ->
    exists q', <[k := p']> ws !! k2 = Some q' /\
      (mu t' q' <= mu t q - (if decide (k = k2) then 1 else 0))%nat.
Proof.
  intros Hk Hmono Hdec k2 q Hq. destruct (decide (k = k2)) as [<-|Hne].
  - exists p'. rewrite list_lookup_insert_eq by by eapply lookup_lt_Some.
    split; [done|]. by simplify_eq.
  - exists q. rewrite list_lookup_insert_ne by done.
    split; [done|]. specialize (Hmono q). lia.
Qed.

Lemma contention_step s e :
  consistent s ->
  forall k q, workers s !! k = Some q ->
    exists q', workers (system_step s e) !! k = Some q' /\
      (statements_left (jobs (system_step s e)) q'
       <= statements_left (jobs s) q
          - (if decide (who e = k) then 1 else 0))%nat.
Proof.
  intros Hcons.
  destruct (workers s !! who e) as [p|] eqn:Hp.
  2:{ rewrite system_step_idle by done. intros k q Hq. exists q.
      split; [done|]. rewrite decide_False; [lia|].
      intros <-. by rewrite Hp in Hq. }
  rewrite (system_step_at s e p Hp). cbn [jobs workers].
  destruct p as [|j now|j err]; cbn [Preempt_step fst snd].
  - apply (move_bound statements_left _ (who e) AtSelect); [done..|].
    pose proof (Preempt_select_cases (ev_fault e) (ev_clock e) (jobs s)) as H.
    destruct (Preempt_select _ _ _) as [|c n|c err]; [done| |simpl; lia].
    destruct H as (_ & _ & HF). apply First_found in HF as (Hc & [Hw _] & _).
    simpl. rewrite decide_True by done. lia.
  - destruct (ev_fault e) as [err|]; cbn [error_of].
    { rewrite Preempt_update_fault. cbn [fst snd].
      apply (move_bound statements_left _ (who e) (AtUpdate j now)); [done..|].
      simpl. lia. }
    destruct (Preempt_update_cases j now (jobs s))
      as [[-> Hmiss]|[-> (r & Hr & Hm)]]; cbn [fst snd].
    + apply (move_bound statements_left _ (who e) (AtUpdate j now)); [done..|].
      simpl. rewrite decide_False; [lia|].
      intros [Hj _]. by apply (Hmiss j Hj).
    + destruct Hcons as [Hpk Hcand _ _].
      assert (Hfresh : fresh j (jobs s)).
      { destruct (Hcand _ _ _ Hp) as [|(r2 & Hr2 & Hid2 & _ & Hv2)]; [done|].
        destruct Hm as [Hid Hv]. destruct Hv2. rewrite <- Hv. f_equal.
        eapply primary_key_inj; [done..|congruence]. }
      destruct Hfresh as [Hj Hw].
      pose proof (waiting_rows_claim_lt j now (jobs s) Hj Hw) as Hlt.
      apply (move_bound statements_left _ (who e) (AtUpdate j now));
        [done| |simpl; lia].
      intros q. destruct q as [|j2 n2|]; simpl; [lia| |lia].
      destruct (decide (fresh j2 _)); destruct (decide (fresh j2 (jobs s))); lia.
  - rewrite list_insert_id by done. intros k q Hq. exists q. split; [done|].
    destruct (decide (who e = k)) as [<-|]; [|lia].
    assert (q = Returned j err) as -> by congruence. simpl. lia.
Qed.

Lemma contention_run es s :
  consistent s ->
  forall k q, workers s !! k = Some q ->
    exists q', workers (run_system es s) !! k = Some q' /\
      (statements_left (jobs (run_system es s)) q'
       <= statements_left (jobs s) q - turns_of k es)%nat.
Proof.
  revert s. induction es as [|e es IH]; intros s Hcons k q Hq.
  - exists q. split; [done|].
    change (turns_of k []) with 0%nat. change (run_system [] s) with s. lia.
  - destruct (contention_step s e Hcons k q Hq) as (q1 & Hq1 & Hle1).
    destruct (IH (system_step s e) (consistent_step s e Hcons) k q1 Hq1)
      as (q2 & Hq2 & Hle2).
    exists q2. split; [done|]. rewrite turns_of_cons.
    change (run_system (e :: es) s) with (run_system es (system_step s e)).
    lia.
Qed.

(** X11: calls of [Preempt] that contend only with each other all return: on
    a table with [w] waiting jobs a call has returned once it has run
    [2 w + 1] statements, whatever the order of the statements, the clock
    readings and the failures.  (Each compare-and-swap it loses is a job
    some other call has claimed.) *)
Theorem contending_calls_return
    (t : table) (n : nat) (es : list event) (k : nat) :
  primary_key t ->
  (k < n)%nat ->
  (2 * waiting_rows t + 1 <= turns_of k es)%nat ->
  exists j err,
    workers (run_system es (start t n)) !! k = Some (Returned j err).
Proof.
  intros Hpk Hk Hturns.
  destruct (contention_run es (start t n) (consistent_start t n Hpk)
              k AtSelect) as (q & Hq & Hle).
  { simpl. by apply lookup_replicate. }
  change (jobs (start t n)) with t in Hle. unfold statements_left in Hle.
  destruct q as [|j2 n2|j err]; [| |by exists j, err].
  - lia.
  - destruct (decide (fresh j2 _)) as [Hfresh|]; [|lia].
    apply fresh_waiting_rows in Hfresh. lia.
Qed.

Lemma contending_calls_return_witness :
  exists j err,
    workers (run_system two_workers_in_turn (start [job1] 2)) !! 1%nat
    = Some (Returned j err).
Proof.
  apply (contending_calls_return [job1] 2 two_workers_in_turn 1).
  - apply NoDup_singleton.
  - lia.
  - vm_compute. lia.
Defined.

(** * Further properties of the interactive service *)

Section interactive_queries.
Context {St Interactive : Type}.
Variable BizID : Interactive -> Z.
Variable zeroInteractive : Interactive.

Lemma by_biz_id_lookup (m0 : gmap Z Interactive) (dis : list Interactive) k :
  foldl (fun m i => <[BizID i := i]> m) m0 dis !! k
  = match last (filter (fun i => BizID i = k) dis) with
    | Some i => Some i
    | None => m0 !! k
    end.
Proof.
  revert m0. induction dis as [|x dis IH]; intros m0; [done|].
  cbn [foldl]. rewrite IH. rewrite (filter_cons _ x dis).
  destruct (decide (BizID x = k)) as [Hk|Hk].
  - rewrite last_cons.
    destruct (last (filter _ dis)); [done|].
    by rewrite Hk, lookup_insert_eq.
  - destruct (last (filter _ dis)); [done|].
    by rewrite lookup_insert_ne.
Qed.

(** X12: [GetByIds] answers with a map keyed by the [BizID] of what the
    repository returned, not by the ids asked for: under a key is the
    last returned element with that [BizID], earlier ones being
    overwritten, and a key none of them carries is absent.  When the
    repository fails, the map is nil and the error is passed on. *)
Theorem GetByIds_keeps_the_last_per_biz_id
    (repo : InteractiveQueries.Repository (St := St) (Interactive := Interactive))
    (biz : string) (ids : list Z) (s : St) :
  match InteractiveQueries.RepoGetById repo biz ids s with
  | ((dis, None), s1) =>
      exists m,
        InteractiveQueries.GetByIds BizID repo biz ids s = ((Some m, None), s1) /\
        (forall k, m !! k = last (filter (fun i => BizID i = k) dis)) /\
        (forall k i, m !! k = Some i -> i ∈ dis /\ BizID i = k) /\
        (forall k, k ∉ BizID <$> dis -> m !! k = None)
  | ((_, Some e), s1) =>
      InteractiveQueries.GetByIds BizID repo biz ids s = ((None, Some e), s1)
  end.
Proof.
  unfold InteractiveQueries.GetByIds.
  destruct (InteractiveQueries.RepoGetById repo biz ids s)
    as [[dis [e|]] s1]; [done|].
  exists (InteractiveQueries.by_biz_id BizID dis).
  assert (Hlook : forall k,
            InteractiveQueries.by_biz_id BizID dis !! k
            = last (filter (fun i => BizID i = k) dis)).
  { intros k. unfold InteractiveQueries.by_biz_id.
    rewrite by_biz_id_lookup, lookup_empty.
    by destruct (last _). }
  split_and!; [done|done| |].
  - intros k i Hi. rewrite Hlook in Hi.
    apply last_Some_elem_of, list_elem_of_filter in Hi. by destruct Hi.
  - intros k Hk. rewrite Hlook.
    destruct (last _) as [i|] eqn:Hi; [|done].
    apply last_Some_elem_of, list_elem_of_filter in Hi as [Hb Hi].
    destruct Hk. apply list_elem_of_fmap. by exists i.
Qed.


End interactive_queries.

(** * Properties of the user handler *)

Section user_handlers.
Context {W User Payload : Type}.
Variable k : UserApi.Constants.
Variable uh : UserApi.UserHandler W User.

(** X14: [SignUp] reaches the user service only with an email that matches
    the email pattern, two equal passwords and a password that matches the
    password pattern: whenever anything behind the handler has changed,
    all three hold and the change is the one [svc.SignUp] made. *)
Theorem SignUp_reaches_the_service_only_with_valid_input
    (req : SignUpReq.t) (w : W) :
  (UserApi.SignUp (Payload := Payload) k uh req w).2 <> w ->
  UserApi.Email uh (SignUpReq.Email req) = (true, None) /\
  SignUpReq.Password req = SignUpReq.ConfirmPassword req /\
  UserApi.PassWord uh (SignUpReq.Password req) = (true, None) /\
  (UserApi.SignUp (Payload := Payload) k uh req w).2
  = (UserApi.svc_SignUp uh (SignUpReq.Email req) (SignUpReq.Password req) w).2.
Proof.
  unfold UserApi.SignUp.
  destruct (UserApi.Email uh (SignUpReq.Email req)) as [[|] [e|]];
    cbn [negb snd]; try done.
  destruct (decide (SignUpReq.Password req <> SignUpReq.ConfirmPassword req))
    as [|Heq]; cbn [snd]; [done|].
  apply dec_stable in Heq.
  destruct (UserApi.PassWord uh (SignUpReq.Password req)) as [[|] [e|]];
    cbn [negb snd]; try done.
  destruct (UserApi.svc_SignUp uh _ _ w) as [[e|] w1]; cbn [snd].
  - by destruct (UserApi.IsDuplicateEmail uh e).
  - done.
Qed.

(** X15: a non-nil error from [SignUp] always comes with the code
    [UserServerErrorCode] and the message [UserSignUpFailure], and it is
    the error of one of the two pattern matches or an error of the service
    other than the duplicate email, which [SignUp] answers with a nil
    error. *)
Theorem SignUp_error_is_a_server_error
    (req : SignUpReq.t) (w : W) (e : error) :
  (UserApi.SignUp (Payload := Payload) k uh req w).1.2 = Some e ->
  UserApi.Code (UserApi.SignUp (Payload := Payload) k uh req w).1.1
    = UserApi.UserServerErrorCode k /\
  UserApi.Msg (UserApi.SignUp (Payload := Payload) k uh req w).1.1
    = UserApi.UserSignUpFailure k /\
  ((UserApi.Email uh (SignUpReq.Email req)).2 = Some e \/
   (UserApi.PassWord uh (SignUpReq.Password req)).2 = Some e \/
   ((UserApi.svc_SignUp uh (SignUpReq.Email req) (SignUpReq.Password req) w).1
      = Some e /\
    UserApi.IsDuplicateEmail uh e = false)).
Proof.
  unfold UserApi.SignUp.
  destruct (UserApi.Email uh (SignUpReq.Email req)) as [[|] [e1|]];
    cbn [negb fst snd]; try done; try (intros [= ->]; by auto).
  destruct (decide (SignUpReq.Password req <> SignUpReq.ConfirmPassword req));
    cbn [fst snd]; [done|].
  destruct (UserApi.PassWord uh (SignUpReq.Password req)) as [[|] [e2|]];
    cbn [negb fst snd]; try done; try (intros [= ->]; by auto).
  destruct (UserApi.svc_SignUp uh _ _ w) as [[e3|] w1]; cbn [fst snd]; [|done].
  destruct (UserApi.IsDuplicateEmail uh e3) eqn:Hdup; cbn [fst snd]; [done|].
  intros [= ->]. split_and!; [done..|]. right. right. done.
Qed.

(** X16: the only error [Login] returns is an error of [svc.Login] other than
    the invalid user or password; the error of [SetLoginToken] is
    dropped: once the service has accepted the credentials the answer is
    [RequestsOK] with a nil error, whether or not the token was set. *)
Theorem Login_reports_no_token_failure (req : LoginReq.t) (w : W) :
  (UserApi.Login (Payload := Payload) k uh req w).1.2
  = match (UserApi.svc_Login uh (LoginReq.Email req)
             (LoginReq.Password req) w).1.2 with
    | Some e =>
        if UserApi.IsInvalidUserOrPassword uh e then None else Some e
    | None => None
    end /\
  ((UserApi.svc_Login uh (LoginReq.Email req) (LoginReq.Password req) w).1.2
     = None ->
   (UserApi.Login (Payload := Payload) k uh req w).1.1
   = UserApi.mkResult (UserApi.RequestsOK k) (UserApi.UserLoginSuccess k) None).
Proof.
  unfold UserApi.Login.
  destruct (UserApi.svc_Login uh _ _ w) as [[du [e|]] w1]; cbn [fst snd].
  - by destruct (UserApi.IsInvalidUserOrPassword uh e).
  - by destruct (UserApi.ijwt_SetLoginToken uh _ w1).
Qed.

(** X17: [ChangePassword] returns a non-nil error only after the service was
    called with a new password equal to its confirmation and failed with
    an error other than the invalid user or password; the error comes
    with [UserServerErrorCode] and has been logged. *)
Theorem ChangePassword_error_is_logged
    (req : ChangeReq.t) (w : W) (e : error) :
  (UserApi.ChangePassword (Payload := Payload) k uh req w).1.2 = Some e ->
  let called :=
    UserApi.svc_ChangePassword uh (ChangeReq.Email req) (ChangeReq.Password req)
      (ChangeReq.NewPassword req) (ChangeReq.ConfirmPassword req) w in
  ChangeReq.NewPassword req = ChangeReq.ConfirmPassword req /\
  called.1 = Some e /\
  UserApi.IsInvalidUserOrPassword uh e = false /\
  UserApi.Code (UserApi.ChangePassword (Payload := Payload) k uh req w).1.1
    = UserApi.UserServerErrorCode k /\
  (UserApi.ChangePassword (Payload := Payload) k uh req w).2
    = UserApi.l_Error uh "change password failed" e called.2.
Proof.
  unfold UserApi.ChangePassword.
  destruct (decide (ChangeReq.NewPassword req <> ChangeReq.ConfirmPassword req))
    as [|Heq]; cbn [fst snd]; [done|].
  apply dec_stable in Heq.
  destruct (UserApi.svc_ChangePassword uh _ _ _ _ w) as [[e1|] w1];
    cbn [fst snd]; [|done].
  destruct (UserApi.IsInvalidUserOrPassword uh e1) eqn:Hinv;
    cbn [fst snd]; [done|].
  by intros [= ->].
Qed.

End user_handlers.

Lemma SignUp_reaches_the_service_only_with_valid_input_witness :
  UserApi.Email sample_handler (SignUpReq.Email bob_signs_up) = (true, None) /\
  SignUpReq.Password bob_signs_up = SignUpReq.ConfirmPassword bob_signs_up /\
  UserApi.PassWord sample_handler (SignUpReq.Password bob_signs_up)
    = (true, None) /\
  (UserApi.SignUp (Payload := unit) sample_constants sample_handler
     bob_signs_up only_ann).2
  = (UserApi.svc_SignUp sample_handler (SignUpReq.Email bob_signs_up)
       (SignUpReq.Password bob_signs_up) only_ann).2.
Proof.
  apply (SignUp_reaches_the_service_only_with_valid_input (Payload := unit)
           sample_constants sample_handler bob_signs_up only_ann).
  vm_compute. discriminate.
Defined.

Lemma SignUp_error_is_a_server_error_witness :
  let r := UserApi.SignUp (Payload := unit) sample_constants sample_handler
             bob_signs_up only_ann_store_down in
  UserApi.Code r.1.1 = UserApi.UserServerErrorCode sample_constants /\
  UserApi.Msg r.1.1 = UserApi.UserSignUpFailure sample_constants /\
  ((UserApi.Email sample_handler (SignUpReq.Email bob_signs_up)).2
     = Some (ErrDB "store unreachable") \/
   (UserApi.PassWord sample_handler (SignUpReq.Password bob_signs_up)).2
     = Some (ErrDB "store unreachable") \/
   ((UserApi.svc_SignUp sample_handler (SignUpReq.Email bob_signs_up)
       (SignUpReq.Password bob_signs_up) only_ann_store_down).1
      = Some (ErrDB "store unreachable") /\
    UserApi.IsDuplicateEmail sample_handler (ErrDB "store unreachable")
      = false)).
Proof.
  apply (SignUp_error_is_a_server_error (Payload := unit)
           sample_constants sample_handler bob_signs_up only_ann_store_down
           (ErrDB "store unreachable")).
  vm_compute. reflexivity.
Defined.

Lemma ChangePassword_error_is_logged_witness :
  let called :=
    UserApi.svc_ChangePassword sample_handler
      (ChangeReq.Email ann_changes_password)
      (ChangeReq.Password ann_changes_password)
      (ChangeReq.NewPassword ann_changes_password)
      (ChangeReq.ConfirmPassword ann_changes_password) only_ann_store_down in
  let r := UserApi.ChangePassword (Payload := unit) sample_constants
             sample_handler ann_changes_password only_ann_store_down in
  ChangeReq.NewPassword ann_changes_password
    = ChangeReq.ConfirmPassword ann_changes_password /\
  called.1 = Some (ErrDB "store unreachable") /\
  UserApi.IsInvalidUserOrPassword sample_handler (ErrDB "store unreachable")
    = false /\
  UserApi.Code r.1.1 = UserApi.UserServerErrorCode sample_constants /\
  r.2 = UserApi.l_Error sample_handler "change password failed"
          (ErrDB "store unreachable") called.2.
Proof.
  apply (ChangePassword_error_is_logged (Payload := unit)
           sample_constants sample_handler ann_changes_password
           only_ann_store_down (ErrDB "store unreachable")).
  vm_compute. reflexivity.
Defined.

(** With the token store down, [Login] of a registered user still
    answers [RequestsOK] and a nil error. *)
Example login_with_token_store_down :
  UserApi.Login (Payload := unit) sample_constants sample_handler
    (LoginReq.mk "ann@example.com" "correct horse") only_ann_store_down
  = ((UserApi.mkResult 200 "login ok" None, None), only_ann_store_down).
Proof. by vm_compute. Qed.
